(** * RSA over arbitrary-precision integers: a shallow embedding of [rsa.py]

    Python integers are modelled as [Z].  Python's [//] and [%] are floor
    division and its remainder, which is what [Z.div] and [Z.modulo] compute
    for a non-zero divisor; for a zero divisor Python raises
    [ZeroDivisionError], which is written out below.  The module draws its
    randomness from [random.randint]; here every draw is read from an explicit
    tape.

    [modexp] and [extended_euclid] are recursive, one interpreter frame per
    nested call, and nothing in the module raises the interpreter's limit on
    the depth of the stack.  [modexp_rec] and [extended_euclid_rec] take that
    limit as the argument [limit], the depth still available when the
    function is entered, and raise [RecursionError] when it is used up; the
    definitions with the suffix [_lim], and [encode] and [decode], pass it on
    to them.  The definitions without a limit ([modexp], [extended_euclid]
    and their callers) describe the run on a stack that is deep enough;
    [modexp_rec_agrees], [extended_euclid_rec_agrees] and the lemmas after
    them say when the two coincide. *)

From Stdlib Require Import ZArith List Lia Bool Znumtheory.
From Stdlib Require Import Zmod.ZmodInv.
From Equations Require Import Equations.
Import ListNotations.
Local Open Scope Z_scope.

(** ** Outcomes of a call *)

(** The exceptions the module can raise. [ZeroDivisor] is the
    [Exception("Zero divisor")] of [modinv]; [ValueError] is what
    [random.randint] raises on an empty or non-integer range. *)
Inductive exn : Type :=
| ZeroDivisionError
| RecursionError
| ZeroDivisor
| ValueError.

(** A call returns a value, raises, or is still running when the budget of
    random draws or of loop iterations given to the model is used up. *)
Inductive result (A : Type) : Type :=
| Ok (a : A)
| Raise (e : exn)
| Unfinished.

Arguments Ok {A} a.
Arguments Raise {A} e.
Arguments Unfinished {A}.

Definition bind_result {A B : Type} (r : result A) (k : A -> result B) : result B :=
  match r with
  | Ok a => k a
  | Raise e => Raise e
  | Unfinished => Unfinished
  end.

(** [a % N] in Python. *)
Definition pymod (a N : Z) : result Z :=
  if N =? 0 then Raise ZeroDivisionError else Ok (a mod N).

(** ** Computations that read random draws *)

Definition M (A : Type) : Type := list Z -> result (A * list Z).

Definition ret {A : Type} (a : A) : M A := fun tape => Ok (a, tape).

Definition bind {A B : Type} (c : M A) (k : A -> M B) : M B :=
  fun tape =>
    match c tape with
    | Ok (a, tape') => k a tape'
    | Raise e => Raise e
    | Unfinished => Unfinished
    end.

Definition lift {A : Type} (r : result A) : M A :=
  fun tape => bind_result r (fun a => Ok (a, tape)).

Declare Scope rsa_scope.
Delimit Scope rsa_scope with rsa.
Notation "x <- c ;; k" := (bind c (fun x => k))
  (at level 61, c at next level, right associativity) : rsa_scope.
Notation "x <~ r ;; k" := (bind_result r (fun x => k))
  (at level 61, r at next level, right associativity) : rsa_scope.
Local Open Scope rsa_scope.

(** [random.randint(lo, hi)]: a value of the closed interval [lo .. hi],
    chosen by the next entry of the tape; [ValueError] on an empty range. *)
Definition randint (lo hi : Z) : M Z :=
  fun tape =>
    if hi <? lo then Raise ValueError
    else match tape with
         | [] => Unfinished
         | r :: tape' => Ok (lo + r mod (hi - lo + 1), tape')
         end.

(** ** modexp *)

(** [modexp] calls itself on [y // 2] until [y == 0].  [limit] is the depth
    of recursion allowed; exceeding it is Python's [RecursionError]. *)
Fixpoint modexp_rec (limit : nat) (x y N : Z) : result Z :=
  match limit with
  | O => Raise RecursionError
  | S limit' =>
      if y =? 0 then Ok 1
      else
        z <~ modexp_rec limit' x (y / 2) N ;;
        if y mod 2 =? 0 then pymod (z ^ 2) N
        else pymod (x * z ^ 2) N
  end.

(** The depth that a non-negative exponent needs: one call per binary digit
    of [y] and one for the base case.  A negative [y] never reaches
    [y == 0] (see [modexp_rec_negative]), whatever the limit. *)
Definition modexp_depth (y : Z) : nat := Z.to_nat (Z.log2 y) + 2.

(** [modexp] on a stack that is deep enough for the exponent: the outcome
    of [modexp_rec limit] for every [limit] from [modexp_depth y] on.  Under
    a smaller limit the call raises [RecursionError]; statements that a call
    returns are made on [modexp_rec]. *)
Definition modexp (x y N : Z) : result Z := modexp_rec (modexp_depth y) x y N.

(** ** extended_euclid and modinv *)

(** [extended_euclid] calls itself on [(b, a % b)] until [b == 0], one frame
    per step of Euclid's algorithm; [limit] is the depth allowed. *)
Fixpoint extended_euclid_rec (limit : nat) (a b : Z) : result (Z * Z * Z) :=
  match limit with
  | O => Raise RecursionError
  | S limit' =>
      if b =? 0 then Ok (1, 0, a)
      else
        r <~ extended_euclid_rec limit' b (a mod b) ;;
        let '(m, n, d) := r in Ok (n, m - (a / b) * n, d)
  end.

(** [modinv] under that limit. *)
Definition modinv_lim (limit : nat) (a N : Z) : result Z :=
  r <~ extended_euclid_rec limit a N ;;
  let '(m, _, d) := r in
  if negb (d =? 1) then Raise ZeroDivisor
  else pymod m N.

(** The same functions on a stack that is deep enough: the recursion on
    [(b, a % b)] ends for all integers, since [|a % b| < |b|]. *)
Equations? extended_euclid (a b : Z) : Z * Z * Z by wf (Z.abs_nat b) lt :=
  extended_euclid a b with Z.eq_dec b 0 := {
    | left _ => (1, 0, a)
    | right _ =>
        let '(m, n, d) := extended_euclid b (a mod b) in
        (n, m - (a / b) * n, d) }.
Proof.
  pose proof (Z.mod_pos_bound a b). pose proof (Z.mod_neg_bound a b). lia.
Qed.

Definition modinv (a N : Z) : result Z :=
  let '(m, _, d) := extended_euclid a N in
  if negb (d =? 1) then Raise ZeroDivisor
  else pymod m N.

(** ** fermat_test *)

(** The [alphas] argument is either an [int] (a number of witnesses to
    draw) or an explicit collection of witnesses. *)
Inductive alphas_arg : Type :=
| Count (k : Z)
| Explicit (l : list Z).

(** [[randint(1, N-1) for i in range(k)]] *)
Fixpoint draw_witnesses (k : nat) (N : Z) : M (list Z) :=
  match k with
  | O => ret []
  | S k' =>
      a <- randint 1 (N - 1) ;;
      l <- draw_witnesses k' N ;;
      ret (a :: l)
  end.

(** The [for a in alphas] loop. *)
Fixpoint fermat_loop (N : Z) (alphas : list Z) : result bool :=
  match alphas with
  | [] => Ok true
  | a :: rest =>
      z <~ modexp a (N - 1) N ;;
      if negb (z =? 1) then Ok false
      else fermat_loop N rest
  end.

Definition fermat_test (N : Z) (alphas : alphas_arg) : M bool :=
  l <- match alphas with
       | Count k => draw_witnesses (Z.to_nat k) N
       | Explicit l => ret l
       end ;;
  lift (fermat_loop N l).

(** The loop and the test under a limit on the depth of [modexp]. *)
Fixpoint fermat_loop_lim (limit : nat) (N : Z) (alphas : list Z) : result bool :=
  match alphas with
  | [] => Ok true
  | a :: rest =>
      z <~ modexp_rec limit a (N - 1) N ;;
      if negb (z =? 1) then Ok false
      else fermat_loop_lim limit N rest
  end.

Definition fermat_test_lim (limit : nat) (N : Z) (alphas : alphas_arg) : M bool :=
  l <- match alphas with
       | Count k => draw_witnesses (Z.to_nat k) N
       | Explicit l => ret l
       end ;;
  lift (fermat_loop_lim limit N l).

(** The default argument [alphas=10]. *)
Definition default_alphas : alphas_arg := Count 10.

(** The same loop, also reporting the witnesses on which [modexp] was
    called, in order. *)
Fixpoint fermat_loop_evaluated (N : Z) (alphas : list Z) : list Z :=
  match alphas with
  | [] => []
  | a :: rest =>
      match modexp a (N - 1) N with
      | Ok z => if negb (z =? 1) then [a] else a :: fermat_loop_evaluated N rest
      | _ => [a]
      end
  end.

Fixpoint fermat_loop_evaluated_lim (limit : nat) (N : Z) (alphas : list Z) : list Z :=
  match alphas with
  | [] => []
  | a :: rest =>
      match modexp_rec limit a (N - 1) N with
      | Ok z => if negb (z =? 1) then [a]
                else a :: fermat_loop_evaluated_lim limit N rest
      | _ => [a]
      end
  end.

(** ** randprime *)

Definition trial_witnesses : list Z := [2; 3; 5; 7; 11; 13; 17; 19].

(** [while True: n = randint(lower, upper); if fermat_test(n, alphas): return n].
    [fuel] bounds the number of iterations. *)
Fixpoint randprime (fuel : nat) (lower upper : Z) : M Z :=
  match fuel with
  | O => fun _ => Unfinished
  | S fuel' =>
      n <- randint lower upper ;;
      b <- fermat_test n (Explicit trial_witnesses) ;;
      if (b : bool) then ret n else randprime fuel' lower upper
  end.

Fixpoint randprime_lim (limit fuel : nat) (lower upper : Z) : M Z :=
  match fuel with
  | O => fun _ => Unfinished
  | S fuel' =>
      n <- randint lower upper ;;
      b <- fermat_test_lim limit n (Explicit trial_witnesses) ;;
      if (b : bool) then ret n else randprime_lim limit fuel' lower upper
  end.

(** ** keygen *)

(** The search [e = 3; while True: try: d = modinv(e, phi); break; except: e += 1].
    The bare [except] catches every exception. *)
Fixpoint exponent_search (fuel : nat) (e phi : Z) : result (Z * Z) :=
  match fuel with
  | O => Unfinished
  | S fuel' =>
      match modinv e phi with
      | Ok d => Ok (e, d)
      | Raise _ => exponent_search fuel' (e + 1) phi
      | Unfinished => Unfinished
      end
  end.

(** Under a limit: the bare [except] catches a [RecursionError] of
    [modinv] like any other exception. *)
Fixpoint exponent_search_lim (limit fuel : nat) (e phi : Z) : result (Z * Z) :=
  match fuel with
  | O => Unfinished
  | S fuel' =>
      match modinv_lim limit e phi with
      | Ok d => Ok (e, d)
      | Raise _ => exponent_search_lim limit fuel' (e + 1) phi
      | Unfinished => Unfinished
      end
  end.

Definition key : Type := Z * Z.

(** For [nbits <= 0] the bound [2**(nbits-1)] is a float, and the first
    [randint] rejects it ([ValueError], or [TypeError] in recent versions
    of the library; the model has one constructor for both).  The three
    loops share the budget [fuel]. *)
Definition keygen (fuel : nat) (nbits : Z) : M (key * key) :=
  if nbits <? 1 then fun _ => Raise ValueError
  else
    let lower := 2 ^ (nbits - 1) in
    let upper := 2 ^ nbits - 1 in
    p <- randprime fuel lower upper ;;
    q <- randprime fuel lower upper ;;
    let N := p * q in
    ed <- lift (exponent_search fuel 3 ((p - 1) * (q - 1))) ;;
    ret ((N, fst ed), (N, snd ed)).

(** [modexp] is entered below the frames of [randprime] and [fermat_test],
    [extended_euclid] below the frame of [modinv]: [lim_modexp] and
    [lim_euclid] are the depths available at these two places. *)
Definition keygen_lim (lim_modexp lim_euclid fuel : nat) (nbits : Z) : M (key * key) :=
  if nbits <? 1 then fun _ => Raise ValueError
  else
    let lower := 2 ^ (nbits - 1) in
    let upper := 2 ^ nbits - 1 in
    p <- randprime_lim lim_modexp fuel lower upper ;;
    q <- randprime_lim lim_modexp fuel lower upper ;;
    let N := p * q in
    ed <- lift (exponent_search_lim lim_euclid fuel 3 ((p - 1) * (q - 1))) ;;
    ret ((N, fst ed), (N, snd ed)).

(** ** encode and decode *)

(** [limit] is the depth available where [modexp] is entered. *)
Definition encode (limit : nat) (public_key : key) (msg : Z) : result Z :=
  let '(N, e) := public_key in modexp_rec limit msg e N.

Definition decode (limit : nat) (private_key : key) (msg : Z) : result Z :=
  let '(N, d) := private_key in modexp_rec limit msg d N.

(** ** Notions used to state the properties *)

(** [int.bit_length]. *)
Definition bit_length (n : Z) : Z :=
  if n =? 0 then 0 else Z.log2 (Z.abs n) + 1.

(** What [modexp x y N] returns on a non-negative exponent and a non-zero
    modulus: the base case is [1], not reduced. *)
Definition modexp_value (x N y : Z) : Z := if y =? 0 then 1 else x ^ y mod N.

(** Whether the witness [a] passes the test of [N]. *)
Definition passes (N a : Z) : bool := a ^ (N - 1) mod N =? 1.

(** The number of nested calls of [extended_euclid a b]. *)
Equations? euclid_depth (a b : Z) : nat by wf (Z.abs_nat b) lt :=
  euclid_depth a b with Z.eq_dec b 0 := {
    | left _ => 1%nat
    | right _ => S (euclid_depth b (a mod b)) }.
Proof.
  pose proof (Z.mod_pos_bound a b). pose proof (Z.mod_neg_bound a b). lia.
Qed.

(** A bound on that number from the size of [b]. *)
Definition euclid_bound (b : Z) : nat := Z.to_nat (2 * Z.log2 (Z.abs b) + 3).

(** The interpreter's default limit on the depth of the stack. *)
Definition default_limit : nat := 1000.

(** Consecutive Fibonacci numbers [(F(n), F(n+1))], on which Euclid's
    algorithm takes the most steps. *)
Fixpoint fib_pair (n : nat) : Z * Z :=
  match n with
  | O => (0, 1)
  | S n' => let '(x, y) := fib_pair n' in (y, x + y)
  end.

Definition fib (n : nat) : Z := fst (fib_pair n).

(** Primality of small numbers by trial division, for the examples. *)
Definition trial_division (p : Z) : bool :=
  (1 <? p) &&
  forallb (fun n => negb (p mod n =? 0))
          (map (fun i => 2 + Z.of_nat i) (seq 0 (Z.to_nat (p - 2)))).

(** ** The docstring examples *)

Example modexp_2_3_10 : modexp 2 3 10 = Ok 8.
Proof. reflexivity. Qed.

Example modexp_2_3_5 : modexp 2 3 5 = Ok 3.
Proof. reflexivity. Qed.

Example extended_euclid_5_0 : extended_euclid 5 0 = (1, 0, 5).
Proof. reflexivity. Qed.

Example extended_euclid_15_7 : extended_euclid 15 7 = (1, -2, 1).
Proof. vm_compute. reflexivity. Qed.

Example modinv_2_7 : modinv 2 7 = Ok 4.
Proof. vm_compute. reflexivity. Qed.

(** * Properties *)

(** ** modexp *)

Section Modexp.

Variables x N : Z.

(** On a negative exponent the recursion never reaches [y == 0]: every
    limit is exceeded. *)
Lemma modexp_rec_negative (limit : nat) (y : Z) :
  y < 0 -> modexp_rec limit x y N = Raise RecursionError.
Proof.
  revert y. induction limit as [|limit IH]; intros y Hy; [reflexivity|].
  cbn [modexp_rec].
  destruct (Z.eqb_spec y 0) as [->|_]; [lia|].
  rewrite IH; [reflexivity|].
  apply Z.div_lt_upper_bound; lia.
Qed.

Lemma modexp_negative (y : Z) : y < 0 -> modexp x y N = Raise RecursionError.
Proof. apply modexp_rec_negative. Qed.

Lemma modexp_value_sq (y : Z) : 0 <= y -> modexp_value x N y ^ 2 mod N = x ^ (2 * y) mod N.
Proof.
  intros Hy. unfold modexp_value.
  destruct (Z.eqb_spec y 0) as [->|Hne].
  - reflexivity.
  - rewrite Z.mod_pow_l, <- Z.pow_mul_r by lia. f_equal. f_equal. lia.
Qed.

Hypothesis N_nonzero : N <> 0.

Lemma modexp_rec_value (limit : nat) (y : Z) :
  0 <= y < 2 ^ Z.of_nat limit ->
  modexp_rec (S limit) x y N = Ok (modexp_value x N y).
Proof.
  revert y. induction limit as [|limit IH]; intros y Hy.
  - assert (y = 0) as -> by (cbn in Hy; lia). reflexivity.
  - cbn [modexp_rec].
    destruct (Z.eqb_spec y 0) as [->|Hne]; [reflexivity|].
    rewrite Nat2Z.inj_succ, Z.pow_succ_r in Hy by lia.
    pose proof (Z.div_mod y 2 ltac:(lia)) as Hdm.
    pose proof (Z.mod_pos_bound y 2 ltac:(lia)) as Hb.
    assert (0 <= y / 2 < 2 ^ Z.of_nat limit) as Hhalf by lia.
    specialize (IH _ Hhalf). cbn [modexp_rec] in IH. rewrite IH.
    cbn [bind_result]. unfold pymod.
    destruct (Z.eqb_spec N 0) as [?|_]; [contradiction|].
    unfold modexp_value at 3. destruct (Z.eqb_spec y 0) as [?|_]; [contradiction|].
    destruct (Z.eqb_spec (y mod 2) 0) as [Heven|Hodd].
    + rewrite modexp_value_sq by lia. do 3 f_equal. lia.
    + rewrite <- Z.mul_mod_idemp_r, modexp_value_sq, Z.mul_mod_idemp_r by lia.
      rewrite <- Z.pow_succ_r by lia. do 3 f_equal. lia.
Qed.

Lemma modexp_depth_enough (y : Z) :
  0 <= y -> 0 <= y < 2 ^ Z.of_nat (pred (modexp_depth y)).
Proof.
  intros Hy. unfold modexp_depth.
  replace (pred (Z.to_nat (Z.log2 y) + 2)) with (S (Z.to_nat (Z.log2 y))) by lia.
  rewrite Nat2Z.inj_succ, Z2Nat.id by apply Z.log2_nonneg.
  destruct (Z.eq_dec y 0) as [->|Hne]; [cbn; lia|].
  pose proof (Z.log2_spec y ltac:(lia)). lia.
Qed.

Lemma modexp_nonneg (y : Z) : 0 <= y -> modexp x y N = Ok (modexp_value x N y).
Proof.
  intros Hy. unfold modexp.
  replace (modexp_depth y) with (S (pred (modexp_depth y))) by (unfold modexp_depth; lia).
  apply modexp_rec_value, modexp_depth_enough, Hy.
Qed.

(** A larger limit does not change the result. *)
Lemma modexp_rec_enough (limit : nat) (y : Z) :
  0 <= y -> (modexp_depth y <= limit)%nat ->
  modexp_rec limit x y N = modexp x y N.
Proof.
  intros Hy Hl. rewrite modexp_nonneg by exact Hy.
  destruct limit as [|limit]; [unfold modexp_depth in Hl; lia|].
  apply modexp_rec_value.
  pose proof (modexp_depth_enough y Hy) as [H0 H1]. split; [exact H0|].
  eapply Z.lt_le_trans; [exact H1|].
  apply Z.pow_le_mono_r; lia.
Qed.

End Modexp.

(** [modexp] computes [x^y mod N], except that for [y = 0] it returns [1]
    without reducing it, which is [1 mod N] only for [N >= 2]. *)
Lemma modexp_spec (x y N : Z) :
  0 <= y -> N <> 0 -> y <> 0 \/ 2 <= N -> modexp x y N = Ok (x ^ y mod N).
Proof.
  intros Hy HN Hc. rewrite modexp_nonneg by assumption.
  unfold modexp_value. destruct (Z.eqb_spec y 0) as [->|_]; [|reflexivity].
  destruct Hc as [Hc|Hc]; [contradiction|].
  rewrite Z.pow_0_r, Z.mod_1_l by lia. reflexivity.
Qed.

Lemma modexp_zero_exponent (x N : Z) : modexp x 0 N = Ok 1.
Proof. reflexivity. Qed.

(** C3: [modexp x y N] is to be [x^y mod N] for [y >= 0] and [N >= 1].  At
    [y = 0], [N = 1] the base case returns [1] unreduced, while [x^0 mod 1]
    is [0]; everywhere else in that range [modexp_spec] applies. *)
Theorem modexp_modulus_one : modexp 5 0 1 = Ok 1 /\ 5 ^ 0 mod 1 = 0.
Proof. split; reflexivity. Qed.

(** With a zero modulus the first reduction raises. *)
Lemma modexp_zero_modulus (x y : Z) : 0 < y -> modexp x y 0 = Raise ZeroDivisionError.
Proof.
  intros Hy. unfold modexp.
  pose proof (modexp_depth_enough y ltac:(lia)) as Hd.
  replace (modexp_depth y) with (S (pred (modexp_depth y))) by (unfold modexp_depth; lia).
  revert Hd. generalize (pred (modexp_depth y)) as limit.
  intros limit. revert y Hy.
  induction limit as [|limit IH]; intros y Hy Hd.
  - cbn in Hd. lia.
  - cbn [modexp_rec].
    destruct (Z.eqb_spec y 0) as [?|_]; [lia|].
    rewrite Nat2Z.inj_succ, Z.pow_succ_r in Hd by lia.
    pose proof (Z.div_mod y 2 ltac:(lia)) as Hdm.
    pose proof (Z.mod_pos_bound y 2 ltac:(lia)) as Hb.
    destruct (Z.eq_dec (y / 2) 0) as [H0|H0].
    + rewrite H0. destruct limit; cbn; destruct (y mod 2 =? 0); reflexivity.
    + specialize (IH (y / 2) ltac:(lia) ltac:(lia)).
      cbn [modexp_rec] in IH. rewrite IH. reflexivity.
Qed.

(** ** extended_euclid *)

(** The defining equation, as the source reads. *)
Lemma extended_euclid_eq (a b : Z) :
  extended_euclid a b =
  if b =? 0 then (1, 0, a)
  else let '(m, n, d) := extended_euclid b (a mod b) in (n, m - (a / b) * n, d).
Proof.
  funelim (extended_euclid a b).
  - subst b. reflexivity.
  - destruct (Z.eqb_spec b 0) as [?|_]; [contradiction|reflexivity].
Qed.

(** Bezout's identity holds for all integer arguments. *)
Lemma extended_euclid_bezout (a b : Z) :
  let '(m, n, d) := extended_euclid a b in m * a + n * b = d.
Proof.
  funelim (extended_euclid a b).
  - lia.
  - destruct (extended_euclid b (a mod b)) as [[m' n'] d'].
    pose proof (Z.div_mod a b ltac:(assumption)). nia.
Qed.

(** With a non-negative second argument the third component is the gcd. *)
Lemma extended_euclid_gcd (a b : Z) :
  0 <= b -> 0 <= a \/ 0 < b -> snd (extended_euclid a b) = Z.gcd a b.
Proof.
  funelim (extended_euclid a b); intros Hb Ha.
  - subst b. cbn [snd]. rewrite Z.gcd_0_r, Z.abs_eq; lia.
  - pose proof (Z.mod_pos_bound a b ltac:(lia)) as Hmod.
    match goal with IH : _ -> _ -> snd _ = _ |- _ =>
      specialize (IH ltac:(lia) ltac:(lia)); revert IH end.
    destruct (extended_euclid b (a mod b)) as [[m' n'] d'].
    cbn [snd]. intros ->.
    rewrite (Z.gcd_comm b), Z.gcd_mod by assumption. apply Z.gcd_comm.
Qed.

(** With a non-positive second argument it is the gcd negated. *)
Lemma extended_euclid_gcd_neg (a b : Z) :
  b <= 0 -> a <= 0 \/ b < 0 -> snd (extended_euclid a b) = - Z.gcd a b.
Proof.
  funelim (extended_euclid a b); intros Hb Ha.
  - subst b. cbn [snd]. rewrite Z.gcd_0_r, Z.abs_neq; lia.
  - pose proof (Z.mod_neg_bound a b ltac:(lia)) as Hmod.
    match goal with IH : _ -> _ -> snd _ = _ |- _ =>
      specialize (IH ltac:(lia) ltac:(lia)); revert IH end.
    destruct (extended_euclid b (a mod b)) as [[m' n'] d'].
    cbn [snd]. intros ->.
    rewrite (Z.gcd_comm b), Z.gcd_mod by assumption.
    rewrite (Z.gcd_comm b). reflexivity.
Qed.

(** On a stack that is deep enough: for [a >= 0] and [b >= 0], [extended_euclid a b] returns [(m, n, d)]
    with [m*a + n*b = d] and [d = gcd a b]; the base case [b = 0] returns
    [(1, 0, a)], so [extended_euclid 0 0 = (1, 0, 0)], and [gcd 0 0 = 0]. *)
Lemma extended_euclid_correct (a b : Z) :
  0 <= a -> 0 <= b ->
  (exists m n d, extended_euclid a b = (m, n, d) /\
                 m * a + n * b = d /\ d = Z.gcd a b) /\
  extended_euclid a 0 = (1, 0, a) /\
  extended_euclid 0 0 = (1, 0, 0) /\
  Z.gcd 0 0 = 0.
Proof.
  intros Ha Hb. split; [|repeat split].
  pose proof (extended_euclid_bezout a b) as Hbez.
  pose proof (extended_euclid_gcd a b Hb (or_introl Ha)) as Hgcd.
  destruct (extended_euclid a b) as [[m n] d]. cbn [snd] in Hgcd.
  exists m, n, d. auto.
Qed.

(** ** modinv *)

(** The error is raised exactly when the third component returned by
    [extended_euclid] differs from [1]. *)
Lemma modinv_raises_iff (a N : Z) :
  modinv a N = Raise ZeroDivisor <-> snd (extended_euclid a N) <> 1.
Proof.
  unfold modinv. destruct (extended_euclid a N) as [[m n] d]. cbn [snd].
  destruct (Z.eqb_spec d 1) as [->|Hd]; cbn [negb].
  - unfold pymod. destruct (N =? 0); split; intros H; try discriminate H; congruence.
  - split; [intros _; exact Hd | reflexivity].
Qed.

(** Whatever the sign of [N], a gcd other than [1] makes [modinv] raise. *)
Lemma modinv_not_coprime (a N : Z) :
  Z.gcd a N <> 1 -> modinv a N = Raise ZeroDivisor.
Proof.
  intros Hg. apply modinv_raises_iff.
  destruct (Z.lt_trichotomy N 0) as [Hneg|[->|Hpos]].
  - rewrite extended_euclid_gcd_neg by lia. pose proof (Z.gcd_nonneg a N). lia.
  - rewrite extended_euclid_eq. cbn [Z.eqb snd]. rewrite Z.gcd_0_r in Hg. lia.
  - rewrite extended_euclid_gcd by lia. exact Hg.
Qed.

Lemma modinv_coprime (a N : Z) :
  1 <= N -> Z.gcd a N = 1 ->
  exists x, modinv a N = Ok x /\ 0 <= x < N /\ (a * x) mod N = 1 mod N.
Proof.
  intros HN Hg.
  pose proof (extended_euclid_bezout a N) as Hbez.
  pose proof (extended_euclid_gcd a N ltac:(lia) ltac:(lia)) as Hgcd.
  unfold modinv. destruct (extended_euclid a N) as [[m n] d]. cbn [snd] in Hgcd.
  rewrite Hgcd, Hg in *. cbn [Z.eqb negb Pos.eqb]. unfold pymod.
  destruct (Z.eqb_spec N 0) as [?|_]; [lia|].
  exists (m mod N). split; [reflexivity|]. split; [apply Z.mod_pos_bound; lia|].
  rewrite Z.mul_mod_idemp_r by lia.
  replace (a * m) with (1 + (- n) * N) by lia.
  apply Z.mod_add. lia.
Qed.

Lemma modinv_positive_modulus (a N : Z) :
  1 <= N ->
  modinv a N = (if Z.gcd a N =? 1 then Ok (fst (fst (extended_euclid a N)) mod N)
                else Raise ZeroDivisor).
Proof.
  intros HN. destruct (Z.eqb_spec (Z.gcd a N) 1) as [Hg|Hg].
  - pose proof (extended_euclid_gcd a N ltac:(lia) ltac:(lia)) as Hgcd.
    unfold modinv. destruct (extended_euclid a N) as [[m n] d]. cbn [snd fst] in *.
    rewrite Hgcd, Hg. cbn [Z.eqb negb Pos.eqb]. unfold pymod.
    destruct (Z.eqb_spec N 0) as [?|_]; [lia|reflexivity].
  - apply modinv_not_coprime, Hg.
Qed.

(** ** fermat_test *)

(** A call with an explicit collection reads no random draw. *)
Lemma fermat_test_on_list (N : Z) (ws tape : list Z) :
  fermat_test N (Explicit ws) tape =
  bind_result (fermat_loop N ws) (fun b => Ok (b, tape)).
Proof. reflexivity. Qed.

Section FermatLoop.

Variable N : Z.
Hypothesis N_ge_2 : 2 <= N.

Lemma modexp_witness (a : Z) : modexp a (N - 1) N = Ok (a ^ (N - 1) mod N).
Proof. apply modexp_spec; lia. Qed.

Lemma fermat_loop_forallb (ws : list Z) :
  fermat_loop N ws = Ok (forallb (passes N) ws).
Proof.
  induction ws as [|a ws IH]; [reflexivity|].
  cbn [fermat_loop forallb]. rewrite modexp_witness. cbn [bind_result].
  unfold passes at 1. destruct (_ =? 1); [exact IH | reflexivity].
Qed.

(** The loop stops at the first witness that fails. *)
Lemma fermat_loop_short_circuit (l1 l2 : list Z) (a : Z) :
  forallb (passes N) l1 = true -> passes N a = false ->
  fermat_loop N (l1 ++ a :: l2) = Ok false /\
  fermat_loop_evaluated N (l1 ++ a :: l2) = l1 ++ [a].
Proof.
  intros H1 Ha. induction l1 as [|b l1 IH].
  - cbn. rewrite modexp_witness. cbn [bind_result].
    unfold passes in Ha. rewrite Ha. split; reflexivity.
  - cbn [forallb] in H1. apply andb_prop in H1 as [Hb H1].
    destruct (IH H1) as [IH1 IH2].
    cbn [app fermat_loop fermat_loop_evaluated].
    rewrite modexp_witness. cbn [bind_result].
    unfold passes in Hb. rewrite Hb. cbn [negb].
    rewrite IH1, IH2. split; reflexivity.
Qed.

Lemma passes_false_iff (a : Z) : passes N a = false <-> a ^ (N - 1) mod N <> 1.
Proof. unfold passes. destruct (Z.eqb_spec (a ^ (N - 1) mod N) 1); intuition congruence. Qed.

Lemma passes_true_iff (a : Z) : passes N a = true <-> a ^ (N - 1) mod N = 1.
Proof. unfold passes. apply Z.eqb_eq. Qed.

Lemma forallb_passes (ws : list Z) :
  forallb (passes N) ws = true <-> forall a, In a ws -> a ^ (N - 1) mod N = 1.
Proof.
  rewrite forallb_forall. split; intros H a Ha; apply passes_true_iff, H, Ha.
Qed.

Lemma forallb_passes_false (ws : list Z) :
  forallb (passes N) ws = false <-> exists a, In a ws /\ a ^ (N - 1) mod N <> 1.
Proof.
  induction ws as [|b ws IH]; cbn [forallb In].
  - split; [discriminate | intros (a & [] & _)].
  - rewrite andb_false_iff, IH, passes_false_iff. split.
    + intros [Hb | (a & Ha & Hne)]; [exists b | exists a]; auto.
    + intros (a & [<- | Ha] & Hne); [left | right; exists a]; auto.
Qed.

End FermatLoop.

(** On a stack that is deep enough: for [N >= 2] and an explicit ordered collection
    [ws], [fermat_test] returns a boolean; it returns [false] exactly when
    some witness [a] of [ws] has [a^(N-1) mod N <> 1], it stops at the first
    such witness without calling [modexp] on the later ones, and it returns
    [true] when every witness has [a^(N-1) mod N = 1]. *)
Lemma fermat_test_explicit (N : Z) (ws tape : list Z) :
  2 <= N ->
  (exists b, fermat_test N (Explicit ws) tape = Ok (b, tape)) /\
  (fermat_test N (Explicit ws) tape = Ok (false, tape) <->
   exists a, In a ws /\ a ^ (N - 1) mod N <> 1) /\
  (forall l1 a l2,
      ws = l1 ++ a :: l2 ->
      (forall b, In b l1 -> b ^ (N - 1) mod N = 1) ->
      a ^ (N - 1) mod N <> 1 ->
      fermat_test N (Explicit ws) tape = Ok (false, tape) /\
      fermat_loop_evaluated N ws = l1 ++ [a]) /\
  ((forall a, In a ws -> a ^ (N - 1) mod N = 1) ->
   fermat_test N (Explicit ws) tape = Ok (true, tape)).
Proof.
  intros HN. rewrite fermat_test_on_list, fermat_loop_forallb by exact HN.
  cbn [bind_result]. split; [eauto|]. split; [|split].
  - split; intros H.
    + apply forallb_passes_false. congruence.
    + apply forallb_passes_false in H. rewrite H. reflexivity.
  - intros l1 a l2 -> Hl1 Ha.
    apply forallb_passes in Hl1. apply passes_false_iff in Ha.
    destruct (fermat_loop_short_circuit N HN l1 l2 a Hl1 Ha) as [Hr He].
    split; [|exact He].
    rewrite fermat_loop_forallb in Hr by exact HN. congruence.
  - intros H. apply forallb_passes in H. rewrite H. reflexivity.
Qed.

(** For [N <= 0] and a non-empty collection the call never returns. *)
Lemma fermat_test_nonpositive (N a : Z) (ws tape : list Z) :
  N <= 0 -> fermat_test N (Explicit (a :: ws)) tape = Raise RecursionError.
Proof.
  intros HN. rewrite fermat_test_on_list. cbn [fermat_loop].
  rewrite modexp_negative by lia. reflexivity.
Qed.

(** For [N = 1] every witness passes, because [modexp a 0 1] is [1]. *)
Lemma fermat_loop_modulus_one (ws : list Z) : fermat_loop 1 ws = Ok true.
Proof.
  induction ws as [|a ws IH]; [reflexivity|].
  cbn [fermat_loop]. change (modexp a (1 - 1) 1) with (Ok (A := Z) 1).
  exact IH.
Qed.

(** The witnesses reported as evaluated are an initial part of the
    collection, and the result of the loop depends on them alone. *)
Lemma fermat_loop_evaluated_prefix (N : Z) (ws : list Z) :
  exists rest, ws = fermat_loop_evaluated N ws ++ rest.
Proof.
  induction ws as [|a ws [rest IH]]; [exists []; reflexivity|].
  cbn [fermat_loop_evaluated].
  destruct (modexp a (N - 1) N) as [z| |]; try (exists ws; reflexivity).
  destruct (negb (z =? 1)); [exists ws; reflexivity|].
  exists rest. cbn [app]. f_equal. exact IH.
Qed.

Lemma fermat_loop_evaluated_result (N : Z) (ws : list Z) :
  fermat_loop N (fermat_loop_evaluated N ws) = fermat_loop N ws.
Proof.
  induction ws as [|a ws IH]; [reflexivity|].
  cbn [fermat_loop_evaluated fermat_loop].
  destruct (modexp a (N - 1) N) as [z| |] eqn:Hz;
    try (cbn [fermat_loop]; rewrite Hz; reflexivity).
  destruct (negb (z =? 1)) eqn:Hneg; cbn [fermat_loop bind_result];
    rewrite Hz; cbn [bind_result]; rewrite Hneg; [reflexivity | exact IH].
Qed.

(** C10: for [N >= 2], an explicit empty collection of witnesses makes
    [fermat_test] return [true], without any error and whether or not [N]
    is prime: the loop body never runs and nothing checks for emptiness. *)
Theorem fermat_test_empty (N : Z) (tape : list Z) :
  2 <= N -> fermat_test N (Explicit []) tape = Ok (true, tape).
Proof. intros _. reflexivity. Qed.

Lemma fermat_test_empty_witness :
  (2 <= 7 /\ fermat_test 7 (Explicit []) [] = Ok (true, [])) /\
  (2 <= 8 /\ fermat_test 8 (Explicit []) [] = Ok (true, [])).
Proof.
  split; (split; [lia | apply fermat_test_empty; lia]).
Defined.

(** ** fermat_test with drawn witnesses *)

Lemma randint_range (lo hi : Z) (tape : list Z) (v : Z) (tape' : list Z) :
  randint lo hi tape = Ok (v, tape') ->
  lo <= v <= hi /\ exists r, tape = r :: tape'.
Proof.
  unfold randint. destruct (Z.ltb_spec hi lo) as [?|Hle]; [discriminate|].
  destruct tape as [|r tape0]; [discriminate|].
  intros [= <- <-]. pose proof (Z.mod_pos_bound r (hi - lo + 1) ltac:(lia)).
  split; [lia | eauto].
Qed.

(** Every value of the interval is drawn by some tape entry. *)
Lemma randint_any (lo hi v : Z) (tape : list Z) :
  lo <= v <= hi -> randint lo hi ((v - lo) :: tape) = Ok (v, tape).
Proof.
  intros Hv. unfold randint. destruct (Z.ltb_spec hi lo) as [?|_]; [lia|].
  rewrite Z.mod_small by lia. do 2 f_equal. lia.
Qed.

Lemma draw_witnesses_eq (k : nat) (N : Z) (tape : list Z) :
  2 <= N -> (k <= length tape)%nat ->
  draw_witnesses k N tape =
  Ok (map (fun r => 1 + r mod (N - 1)) (firstn k tape), skipn k tape).
Proof.
  intros HN. revert tape. induction k as [|k IH]; intros tape Hk; [reflexivity|].
  destruct tape as [|r tape]; [cbn in Hk; lia|].
  cbn [draw_witnesses firstn skipn map]. unfold bind at 1.
  unfold randint. destruct (Z.ltb_spec (N - 1) 1) as [?|_]; [lia|].
  unfold bind. rewrite IH by (cbn in Hk; lia). unfold ret.
  replace (N - 1 - 1 + 1) with (N - 1) by lia. reflexivity.
Qed.

Lemma drawn_in_range (N : Z) (l : list Z) (a : Z) :
  2 <= N -> In a (map (fun r => 1 + r mod (N - 1)) l) -> 1 <= a <= N - 1.
Proof.
  intros HN Ha. apply in_map_iff in Ha as (r & <- & _).
  pose proof (Z.mod_pos_bound r (N - 1) ltac:(lia)). lia.
Qed.

(** Checking a boolean property on an interval by enumeration. *)
Lemma Zrange_forall (f : Z -> bool) (lo : Z) (n : nat) :
  forallb f (map (fun i => lo + Z.of_nat i) (seq 0 n)) = true ->
  forall a, lo <= a < lo + Z.of_nat n -> f a = true.
Proof.
  intros H a Ha. rewrite forallb_forall in H. apply H.
  apply in_map_iff. exists (Z.to_nat (a - lo)). split; [lia|].
  apply in_seq. lia.
Qed.

Lemma forallb_agree {A : Type} (f g : A -> bool) (l : list A) :
  (forall a, In a l -> f a = g a) -> forallb f l = forallb g l.
Proof.
  induction l as [|a l IH]; intros H; [reflexivity|].
  cbn [forallb]. rewrite (H a (or_introl eq_refl)), IH; [reflexivity|].
  intros b Hb. apply H. right. exact Hb.
Qed.

Lemma passes_61 (a : Z) : 1 <= a <= 60 -> passes 61 a = true.
Proof.
  intros Ha. apply (Zrange_forall (passes 61) 1 60); [vm_compute; reflexivity | lia].
Qed.

(** Modulo [62] the only base in [1 .. 61] that passes is [1]. *)
Lemma passes_62 (a : Z) : 1 <= a <= 61 -> passes 62 a = (a =? 1).
Proof.
  intros Ha. apply eqb_prop.
  apply (Zrange_forall (fun a => eqb (passes 62 a) (a =? 1)) 1 61);
    [vm_compute; reflexivity | lia].
Qed.

(** C9, as the code has it: with the default ten drawn witnesses,
    [fermat_test 61] returns [true] for every sequence of draws, and
    [fermat_test 62] returns [false] exactly when some drawn witness differs
    from [1]; when all ten draws are [1] it returns [true]. *)
Theorem fermat_test_default (tape : list Z) :
  (10 <= length tape)%nat ->
  fermat_test 61 default_alphas tape = Ok (true, skipn 10 tape) /\
  exists ws,
    draw_witnesses 10 62 tape = Ok (ws, skipn 10 tape) /\
    (forall a, In a ws -> 1 <= a <= 61) /\
    fermat_test 62 default_alphas tape =
    Ok (forallb (fun a => a =? 1) ws, skipn 10 tape).
Proof.
  intros Hlen. unfold fermat_test, default_alphas, bind.
  change (Z.to_nat 10) with 10%nat.
  rewrite !draw_witnesses_eq by (try exact Hlen; lia).
  unfold lift. rewrite !fermat_loop_forallb by lia. cbn [bind_result].
  split.
  - do 2 f_equal. apply forallb_forall. intros a Ha.
    apply passes_61. apply (drawn_in_range 61 _ a) in Ha; lia.
  - eexists. split; [reflexivity|]. split.
    + intros a Ha. apply (drawn_in_range 62 _ a) in Ha; lia.
    + do 2 f_equal. apply forallb_agree. intros a Ha.
      apply passes_62. apply (drawn_in_range 62 _ a) in Ha; lia.
Qed.

Lemma fermat_test_default_witness :
  (10 <= length [5; 17; 0; 33; 2; 60; 41; 8; 29; 11; 3])%nat /\
  fermat_test 61 default_alphas [5; 17; 0; 33; 2; 60; 41; 8; 29; 11; 3] = Ok (true, [3]).
Proof.
  split; [cbn; lia|].
  apply (fermat_test_default [5; 17; 0; 33; 2; 60; 41; 8; 29; 11; 3]). cbn; lia.
Defined.

(** C9 as stated fails for [62]: when every draw is the base [1], each
    witness passes and the composite [62] is reported prime. *)
Lemma fermat_test_62_all_ones :
  draw_witnesses 10 62 [0; 0; 0; 0; 0; 0; 0; 0; 0; 0]
  = Ok ([1; 1; 1; 1; 1; 1; 1; 1; 1; 1], []) /\
  fermat_test 62 default_alphas [0; 0; 0; 0; 0; 0; 0; 0; 0; 0] = Ok (true, []) /\
  ~ (exists tape', fermat_test 62 default_alphas [0; 0; 0; 0; 0; 0; 0; 0; 0; 0]
                   = Ok (false, tape')).
Proof.
  split; [vm_compute; reflexivity|]. split; [vm_compute; reflexivity|].
  intros [tape' H]. vm_compute in H. discriminate H.
Qed.

(** ** randprime *)

Lemma randprime_step (fuel : nat) (lower upper : Z) (tape : list Z) :
  randprime (S fuel) lower upper tape =
  match randint lower upper tape with
  | Ok (n, tape') =>
      match fermat_loop n trial_witnesses with
      | Ok true => Ok (n, tape')
      | Ok false => randprime fuel lower upper tape'
      | Raise e => Raise e
      | Unfinished => Unfinished
      end
  | Raise e => Raise e
  | Unfinished => Unfinished
  end.
Proof.
  cbn [randprime]. unfold bind at 1.
  destruct (randint lower upper tape) as [[n tape']| |]; try reflexivity.
  unfold bind. rewrite fermat_test_on_list.
  destruct (fermat_loop n trial_witnesses) as [[|]| |]; reflexivity.
Qed.

Lemma randprime_sound (fuel : nat) (lower upper : Z) (tape : list Z)
    (v : Z) (tape' : list Z) :
  randprime fuel lower upper tape = Ok (v, tape') ->
  lower <= v <= upper /\ fermat_loop v trial_witnesses = Ok true.
Proof.
  revert tape. induction fuel as [|fuel IH]; intros tape; [discriminate|].
  rewrite randprime_step.
  destruct (randint lower upper tape) as [[n tape1]| |] eqn:Hdraw; try discriminate.
  destruct (fermat_loop n trial_witnesses) as [[|]| |] eqn:Htest; try discriminate.
  - intros [= <- <-]. split; [apply (randint_range _ _ _ _ _ Hdraw) | exact Htest].
  - apply IH.
Qed.

(** Rejected candidates cost one draw each; a candidate that passes is
    returned at once. *)
Lemma randprime_accepts (fuel : nat) (lower upper v : Z) (tape : list Z) :
  lower <= v <= upper -> fermat_loop v trial_witnesses = Ok true ->
  randprime (S fuel) lower upper ((v - lower) :: tape) = Ok (v, tape).
Proof.
  intros Hv Ht. rewrite randprime_step, randint_any, Ht by exact Hv. reflexivity.
Qed.

(** C8: whenever [randprime lower upper] returns, on any tape of draws and
    after any number of rejected candidates, its result [v] lies in
    [lower .. upper] and passes [fermat_test] on the eight trial
    witnesses. *)
Theorem randprime_returns (fuel : nat) (lower upper : Z) (tape : list Z)
    (v : Z) (tape' : list Z) :
  randprime fuel lower upper tape = Ok (v, tape') ->
  lower <= v <= upper /\
  forall t, fermat_test v (Explicit [2; 3; 5; 7; 11; 13; 17; 19]) t = Ok (true, t).
Proof.
  intros H. apply randprime_sound in H as [Hr Ht]. split; [exact Hr|].
  intros t. rewrite fermat_test_on_list.
  change [2; 3; 5; 7; 11; 13; 17; 19] with trial_witnesses.
  rewrite Ht. reflexivity.
Qed.

Lemma randprime_returns_witness :
  randprime 4 16 31 [0; 3; 7; 2] = Ok (23, [2]) /\
  16 <= 23 <= 31 /\
  fermat_test 23 (Explicit [2; 3; 5; 7; 11; 13; 17; 19]) [] = Ok (true, []).
Proof.
  assert (H : randprime 4 16 31 [0; 3; 7; 2] = Ok (23, [2])) by (vm_compute; reflexivity).
  split; [exact H|].
  destruct (randprime_returns 4 16 31 [0; 3; 7; 2] 23 [2] H) as [Hr Ht].
  split; [exact Hr | apply Ht].
Defined.

(** A run that has finished does not depend on the budget left over. *)
Lemma randprime_more_fuel (fuel fuel' : nat) (lower upper : Z) (tape : list Z) :
  (fuel <= fuel')%nat ->
  randprime fuel lower upper tape <> Unfinished ->
  randprime fuel' lower upper tape = randprime fuel lower upper tape.
Proof.
  revert fuel' tape. induction fuel as [|fuel IH]; intros fuel' tape Hle Hfin.
  - contradiction Hfin. reflexivity.
  - destruct fuel' as [|fuel']; [lia|].
    rewrite !randprime_step in *.
    destruct (randint lower upper tape) as [[n tape1]| |]; try reflexivity.
    destruct (fermat_loop n trial_witnesses) as [[|]| |]; try reflexivity.
    apply IH; [lia | exact Hfin].
Qed.

(** The primes that are themselves trial witnesses are rejected: the
    witness equal to the candidate leaves the remainder [0]. *)
Lemma randprime_rejects_two : fermat_loop 2 trial_witnesses = Ok false.
Proof. reflexivity. Qed.

(** ** keygen *)

Lemma exponent_search_returns (fuel : nat) (e0 phi e d : Z) :
  exponent_search fuel e0 phi = Ok (e, d) ->
  e0 <= e /\ modinv e phi = Ok d /\
  forall e', e0 <= e' < e -> forall x, modinv e' phi <> Ok x.
Proof.
  revert e0. induction fuel as [|fuel IH]; intros e0; [discriminate|].
  cbn [exponent_search].
  destruct (modinv e0 phi) as [d0| |] eqn:Hinv.
  - intros [= <- <-]. repeat split; [lia | exact Hinv | intros; lia].
  - intros H. destruct (IH _ H) as (Hle & Hd & Hmin).
    repeat split; [lia | exact Hd |].
    intros e' He' x. destruct (Z.eq_dec e' e0) as [->|Hne]; [congruence|].
    apply Hmin. lia.
  - discriminate.
Qed.

Lemma exponent_search_more_fuel (fuel fuel' : nat) (e phi : Z) :
  (fuel <= fuel')%nat ->
  exponent_search fuel e phi <> Unfinished ->
  exponent_search fuel' e phi = exponent_search fuel e phi.
Proof.
  revert fuel' e. induction fuel as [|fuel IH]; intros fuel' e Hle Hfin.
  - contradiction Hfin. reflexivity.
  - destruct fuel' as [|fuel']; [lia|].
    cbn [exponent_search] in *.
    destruct (modinv e phi); try reflexivity.
    apply IH; [lia | exact Hfin].
Qed.

Lemma modinv_ok_coprime (a N x : Z) :
  modinv a N = Ok x -> Z.gcd a N = 1.
Proof.
  intros H. destruct (Z.eq_dec (Z.gcd a N) 1) as [Hg|Hg]; [exact Hg|].
  rewrite (modinv_not_coprime a N Hg) in H. discriminate.
Qed.

Lemma bit_length_product (nbits p q : Z) :
  1 <= nbits ->
  2 ^ (nbits - 1) <= p <= 2 ^ nbits - 1 ->
  2 ^ (nbits - 1) <= q <= 2 ^ nbits - 1 ->
  2 * (nbits - 1) + 1 <= bit_length (p * q) <= 2 * nbits.
Proof.
  intros Hn Hp Hq.
  assert (0 < 2 ^ (nbits - 1)) as Hpos by (apply Z.pow_pos_nonneg; lia).
  assert (2 ^ (2 * (nbits - 1)) <= p * q) as Hlo.
  { replace (2 * (nbits - 1)) with ((nbits - 1) + (nbits - 1)) by lia.
    rewrite Z.pow_add_r by lia. nia. }
  assert (p * q < 2 ^ (2 * nbits)) as Hhi.
  { replace (2 * nbits) with (nbits + nbits) by lia.
    rewrite Z.pow_add_r by lia. nia. }
  assert (0 < p * q) as HN by nia.
  unfold bit_length. destruct (Z.eqb_spec (p * q) 0) as [?|_]; [lia|].
  rewrite Z.abs_eq by lia.
  apply Z.log2_le_pow2 in Hlo; [|exact HN].
  apply Z.log2_lt_pow2 in Hhi; [|exact HN]. lia.
Qed.

(** A value returned by [randprime] is neither [1] nor [2] when the
    exponent search that follows succeeds: [2] fails the test, and [1]
    makes the modulus of the search [0]. *)
Lemma randprime_not_two (fuel : nat) (lower upper : Z) (tape : list Z)
    (tape' : list Z) :
  randprime fuel lower upper tape <> Ok (2, tape').
Proof.
  intros H. apply randprime_sound in H as [_ H]. discriminate H.
Qed.

(** C2: if [keygen nbits] returns [((N, e), (N, d))], with [p] and [q] the
    two values drawn by [randprime], then [e*d mod (p-1)(q-1) = 1], the bit
    length of [N = p*q] lies in [2(nbits-1)+1 .. 2 nbits], and [e] is the
    least integer from [3] on with [gcd e ((p-1)(q-1)) = 1], every smaller
    candidate having been rejected by the failure of [modinv]. *)
Theorem keygen_returns (fuel : nat) (nbits : Z) (tape : list Z)
    (N e N' d : Z) (tape' : list Z) :
  keygen fuel nbits tape = Ok (((N, e), (N', d)), tape') ->
  exists p q tape1,
    randprime fuel (2 ^ (nbits - 1)) (2 ^ nbits - 1) tape = Ok (p, tape1) /\
    randprime fuel (2 ^ (nbits - 1)) (2 ^ nbits - 1) tape1 = Ok (q, tape') /\
    N = p * q /\ N' = p * q /\
    (e * d) mod ((p - 1) * (q - 1)) = 1 /\
    2 * (nbits - 1) + 1 <= bit_length N <= 2 * nbits /\
    3 <= e /\
    Z.gcd e ((p - 1) * (q - 1)) = 1 /\
    (forall e', 3 <= e' < e ->
                Z.gcd e' ((p - 1) * (q - 1)) <> 1 /\
                modinv e' ((p - 1) * (q - 1)) = Raise ZeroDivisor).
Proof.
  unfold keygen. destruct (Z.ltb_spec nbits 1) as [?|Hn]; [discriminate|].
  cbv zeta. unfold bind at 1.
  destruct (randprime fuel _ _ tape) as [[p tape1]| |] eqn:Hp; try discriminate.
  unfold bind at 1.
  destruct (randprime fuel _ _ tape1) as [[q tape2]| |] eqn:Hq; try discriminate.
  unfold bind, lift, ret.
  destruct (exponent_search fuel 3 ((p - 1) * (q - 1))) as [[e0 d0]| |] eqn:Hs;
    cbn [bind_result fst snd]; try discriminate.
  intros [= <- <- <- <- <-].
  apply exponent_search_returns in Hs as (He & Hd & Hmin).
  pose proof (randprime_sound _ _ _ _ _ _ Hp) as [Hpr _].
  pose proof (randprime_sound _ _ _ _ _ _ Hq) as [Hqr _].
  assert (0 < 2 ^ (nbits - 1)) as Hpos by (apply Z.pow_pos_nonneg; lia).
  assert (p <> 2) as Hp2 by (intros ->; exact (randprime_not_two _ _ _ _ _ Hp)).
  assert (q <> 2) as Hq2 by (intros ->; exact (randprime_not_two _ _ _ _ _ Hq)).
  pose proof (modinv_ok_coprime _ _ _ Hd) as Hg.
  assert ((p - 1) * (q - 1) <> 0) as Hphi.
  { intros H0. rewrite H0, Z.gcd_0_r in Hg. lia. }
  assert (4 <= (p - 1) * (q - 1)) as Hphi4 by nia.
  assert (1 <= (p - 1) * (q - 1)) as Hphi1 by lia.
  exists p, q, tape1. repeat split; try assumption; try reflexivity.
  - destruct (modinv_coprime e0 _ Hphi1 Hg) as (x & Hx & _ & Hm).
    rewrite Hd in Hx. injection Hx as <-.
    rewrite Hm. apply Z.mod_1_l. lia.
  - apply bit_length_product; assumption.
  - apply bit_length_product; assumption.
  - intros Hg'. destruct (modinv_coprime e' _ Hphi1 Hg') as (x & Hx & _).
    exact (Hmin e' H x Hx).
  - apply modinv_not_coprime. intros Hg'.
    destruct (modinv_coprime e' _ Hphi1 Hg') as (x & Hx & _).
    exact (Hmin e' H x Hx).
Qed.

(** A run in which the search skips candidates: with [p = 23] and
    [q = 31] the totient is [660 = 4 * 3 * 5 * 11], the candidates [3], [4],
    [5] and [6] are rejected in turn, and [e = 7]. *)
Lemma keygen_returns_witness :
  keygen 5 5 [7; 15] = Ok (((713, 7), (713, 283)), []) /\
  exists p q tape1,
    randprime 5 (2 ^ (5 - 1)) (2 ^ 5 - 1) [7; 15] = Ok (p, tape1) /\
    randprime 5 (2 ^ (5 - 1)) (2 ^ 5 - 1) tape1 = Ok (q, []) /\
    713 = p * q /\ 713 = p * q /\
    (7 * 283) mod ((p - 1) * (q - 1)) = 1 /\
    2 * (5 - 1) + 1 <= bit_length 713 <= 2 * 5 /\
    3 <= 7 /\
    Z.gcd 7 ((p - 1) * (q - 1)) = 1 /\
    (forall e', 3 <= e' < 7 ->
                Z.gcd e' ((p - 1) * (q - 1)) <> 1 /\
                modinv e' ((p - 1) * (q - 1)) = Raise ZeroDivisor).
Proof.
  assert (H : keygen 5 5 [7; 15] = Ok (((713, 7), (713, 283)), []))
    by (vm_compute; reflexivity).
  split; [exact H | exact (keygen_returns 5 5 [7; 15] 713 7 713 283 [] H)].
Defined.

(** The search is not always over at [3]: with [p = q = 31] the totient
    [900] shares a factor with [3], [4], [5] and [6], and [e = 7]. *)
Example keygen_skips_exponents :
  keygen 5 5 [15; 15] = Ok (((961, 7), (961, 643)), []).
Proof. vm_compute. reflexivity. Qed.

Lemma keygen_more_fuel (fuel fuel' : nat) (nbits : Z) (tape : list Z) :
  (fuel <= fuel')%nat ->
  keygen fuel nbits tape <> Unfinished ->
  keygen fuel' nbits tape = keygen fuel nbits tape.
Proof.
  intros Hle. unfold keygen. destruct (nbits <? 1); [reflexivity|].
  cbv zeta. set (lower := 2 ^ (nbits - 1)). set (upper := 2 ^ nbits - 1).
  unfold bind, lift. intros Hfin.
  destruct (randprime fuel lower upper tape) as [[p tape1]| |] eqn:Hp;
    [| | contradiction Hfin; reflexivity];
    rewrite (randprime_more_fuel fuel fuel' lower upper tape Hle), Hp by congruence;
    [|reflexivity].
  destruct (randprime fuel lower upper tape1) as [[q tape2]| |] eqn:Hq;
    [| | contradiction Hfin; reflexivity];
    rewrite (randprime_more_fuel fuel fuel' lower upper tape1 Hle), Hq by congruence;
    [|reflexivity].
  destruct (exponent_search fuel 3 ((p - 1) * (q - 1))) as [ed| |] eqn:Hs;
    [| | contradiction Hfin; reflexivity];
    rewrite (exponent_search_more_fuel fuel fuel' 3 _ Hle), Hs by congruence;
    reflexivity.
Qed.

(** With a zero modulus no candidate is ever accepted. *)
Lemma exponent_search_zero_modulus (fuel : nat) (e : Z) :
  3 <= e -> exponent_search fuel e 0 = Unfinished.
Proof.
  revert e. induction fuel as [|fuel IH]; intros e He; [reflexivity|].
  cbn [exponent_search]. rewrite modinv_not_coprime.
  - apply IH. lia.
  - rewrite Z.gcd_0_r. lia.
Qed.

(** [keygen 1] never returns: the only candidate is [1], which passes the
    test because of the unreduced base case of [modexp], and the exponent
    search then runs on the modulus [0]. *)
Lemma keygen_one_bit (fuel : nat) (tape : list Z) : keygen fuel 1 tape = Unfinished.
Proof.
  assert (Hrp : forall t, randprime fuel 1 1 t = Unfinished \/
                          exists t', randprime fuel 1 1 t = Ok (1, t')).
  { intros t. destruct fuel as [|fuel]; [left; reflexivity|].
    rewrite randprime_step. unfold randint. change (1 <? 1) with false.
    destruct t as [|r t]; [left; reflexivity|].
    change (1 - 1 + 1) with 1. rewrite Z.mod_1_r. change (1 + 0) with 1.
    rewrite fermat_loop_modulus_one. right. eauto. }
  unfold keygen. change (1 <? 1) with false. cbv zeta.
  change (2 ^ (1 - 1)) with 1. change (2 ^ 1 - 1) with 1.
  unfold bind at 1. destruct (Hrp tape) as [->|[t1 ->]]; [reflexivity|].
  unfold bind at 1. destruct (Hrp t1) as [->|[t2 ->]]; [reflexivity|].
  unfold bind, lift. change ((1 - 1) * (1 - 1)) with 0.
  rewrite exponent_search_zero_modulus by lia. reflexivity.
Qed.

(** For [nbits <= 0] the call raises before drawing anything. *)
Lemma keygen_nonpositive_nbits (fuel : nat) (nbits : Z) (tape : list Z) :
  nbits <= 0 -> keygen fuel nbits tape = Raise ValueError.
Proof.
  intros Hn. unfold keygen. destruct (Z.ltb_spec nbits 1) as [_|?]; [reflexivity | lia].
Qed.

(** ** encode and decode *)

Section RoundTrip.

(** Fermat's little theorem, raised to a multiple of [p - 1]. *)
Lemma pow_one_plus_multiple (p m k : Z) :
  Z.prime p -> 0 <= k -> m ^ (1 + k * (p - 1)) mod p = m mod p.
Proof.
  intros Hp Hk. pose proof (Z.prime_ge_2 p Hp) as Hp2.
  destruct (Z.eq_dec (m mod p) 0) as [H0|Hnz].
  - rewrite <- Z.mod_pow_l, H0, Z.pow_0_l by nia. reflexivity.
  - rewrite Z.pow_add_r, Z.pow_1_r by nia.
    rewrite (Z.mul_comm k), Z.pow_mul_r by lia.
    rewrite <- Z.mul_mod_idemp_r, <- Z.mod_pow_l by lia.
    rewrite (Z.fermat_nz p m Hp Hnz), Z.pow_1_l by lia.
    rewrite Z.mul_mod_idemp_r, Z.mul_1_r by lia. reflexivity.
Qed.

Variables p q e d : Z.
Hypothesis p_prime : Z.prime p.
Hypothesis q_prime : Z.prime q.
Hypothesis distinct : p <> q.
Hypothesis e_nonneg : 0 <= e.
Hypothesis d_nonneg : 0 <= d.
Hypothesis inverse : (e * d) mod ((p - 1) * (q - 1)) = 1.

Lemma product_exponent :
  exists k, 0 <= k /\ e * d = 1 + k * ((p - 1) * (q - 1)).
Proof.
  pose proof (Z.prime_ge_2 p p_prime). pose proof (Z.prime_ge_2 q q_prime).
  assert (0 < (p - 1) * (q - 1)) as Hphi by nia.
  exists (e * d / ((p - 1) * (q - 1))). split.
  - apply Z.div_pos; nia.
  - pose proof (Z.div_mod (e * d) ((p - 1) * (q - 1)) ltac:(lia)). lia.
Qed.

Lemma primes_coprime : Z.gcd q p = 1.
Proof.
  apply Z.coprime_prime_l; [exact q_prime|].
  intros Hdiv. apply (Z.divide_prime_prime q p q_prime p_prime) in Hdiv.
  congruence.
Qed.

Lemma power_cong (m : Z) : m ^ (e * d) mod (p * q) = m mod (p * q).
Proof.
  destruct product_exponent as (k & Hk & ->).
  pose proof (Z.prime_ge_2 p p_prime). pose proof (Z.prime_ge_2 q q_prime).
  set (X := m ^ (1 + k * ((p - 1) * (q - 1)))).
  assert (X mod p = m mod p) as Hmp.
  { unfold X. replace (k * ((p - 1) * (q - 1))) with (k * (q - 1) * (p - 1)) by lia.
    apply pow_one_plus_multiple; [exact p_prime | nia]. }
  assert (X mod q = m mod q) as Hmq.
  { unfold X. replace (k * ((p - 1) * (q - 1))) with (k * (p - 1) * (q - 1)) by lia.
    apply pow_one_plus_multiple; [exact q_prime | nia]. }
  apply Z.cong_iff_ex in Hmp as [c Hc].
  apply Z.cong_iff_0 in Hmq. apply Z.mod_divide in Hmq; [|lia].
  rewrite Hc, Z.mul_comm in Hmq. apply Z.gauss in Hmq; [|exact primes_coprime].
  destruct Hmq as [c' ->].
  apply Z.cong_iff_ex. exists c'. lia.
Qed.

Lemma encode_decode (limit : nat) (m : Z) :
  (modexp_depth e <= limit)%nat -> (modexp_depth d <= limit)%nat ->
  0 <= m < p * q ->
  exists c, encode limit (p * q, e) m = Ok c /\ decode limit (p * q, d) c = Ok m.
Proof.
  intros Hle Hld Hm.
  pose proof (Z.prime_ge_2 p p_prime). pose proof (Z.prime_ge_2 q q_prime).
  assert (2 <= p * q) as HN by nia.
  exists (m ^ e mod (p * q)). unfold encode, decode.
  rewrite !modexp_rec_enough by (assumption || lia).
  rewrite !modexp_spec by lia. split; [reflexivity|].
  rewrite Z.mod_pow_l, <- Z.pow_mul_r, power_cong by assumption.
  rewrite Z.mod_small by exact Hm. reflexivity.
Qed.

End RoundTrip.

Lemma trial_division_prime (p : Z) : trial_division p = true -> Z.prime p.
Proof.
  unfold trial_division. intros H. apply andb_prop in H as [H1 H2].
  apply Z.ltb_lt in H1. split; [exact H1|].
  intros n Hn Hdiv.
  pose proof (Zrange_forall _ 2 _ H2 n ltac:(lia)) as Hnb. cbv beta in Hnb.
  apply Z.mod_divide in Hdiv; [|lia].
  rewrite Hdiv in Hnb. discriminate Hnb.
Qed.

(** C1, as the code has it: for two distinct primes [p <> q], [N = p*q],
    exponents [e, d >= 0] with [e*d mod (p-1)(q-1) = 1], a recursion limit
    that leaves [modexp] the [bit_length + 1] nested calls that [e] and [d]
    need, and every message [0 <= m < N], decoding with [(N, d)] the
    encoding of [m] with [(N, e)] gives back [m]; and for the pair
    [(12087136410462725761, 5)], [(12087136410462725761, 4834854561401929901)]
    the message [1337] encodes to [4272253717090457], which decodes to
    [1337], under every limit of at least [64] calls. *)
Theorem encode_decode_roundtrip (limit : nat) (p q e d m : Z) :
  Z.prime p -> Z.prime q -> p <> q ->
  0 <= e -> 0 <= d -> (e * d) mod ((p - 1) * (q - 1)) = 1 ->
  (modexp_depth e <= limit)%nat -> (modexp_depth d <= limit)%nat ->
  0 <= m < p * q ->
  (exists c, encode limit (p * q, e) m = Ok c /\ decode limit (p * q, d) c = Ok m) /\
  (forall lim, (64 <= lim)%nat ->
     encode lim (12087136410462725761, 5) 1337 = Ok 4272253717090457 /\
     decode lim (12087136410462725761, 4834854561401929901) 4272253717090457
     = Ok 1337).
Proof.
  intros Hp Hq Hpq He Hd Hinv Hle Hld Hm. split.
  - apply encode_decode; assumption.
  - intros lim Hlim. unfold encode, decode.
    assert (modexp_depth 5 = 4%nat /\ modexp_depth 4834854561401929901 = 64%nat)
      as [H5 H64] by (split; vm_compute; reflexivity).
    rewrite !modexp_rec_enough by (try discriminate; lia).
    split; vm_compute; reflexivity.
Qed.

Lemma encode_decode_roundtrip_witness :
  (Z.prime 3 /\ Z.prime 11 /\ 3 <> 11 /\ 0 <= 3 /\ 0 <= 7 /\
   (3 * 7) mod ((3 - 1) * (11 - 1)) = 1 /\
   (modexp_depth 3 <= 6)%nat /\ (modexp_depth 7 <= 6)%nat /\ 0 <= 17 < 3 * 11) /\
  exists c, encode 6 (3 * 11, 3) 17 = Ok c /\ decode 6 (3 * 11, 7) c = Ok 17.
Proof.
  assert (Z.prime 3) as H3 by (apply trial_division_prime; reflexivity).
  assert (Z.prime 11) as H11 by (apply trial_division_prime; reflexivity).
  assert ((modexp_depth 3 <= 6)%nat /\ (modexp_depth 7 <= 6)%nat) as [Hd3 Hd7]
    by (split; vm_compute; lia).
  split.
  - repeat split; try assumption; try lia; apply H3 || apply H11.
  - apply (encode_decode_roundtrip 6 3 11 3 7 17); try assumption; try lia.
    reflexivity.
Defined.

(** C1 as stated fails in two ways.  When the two primes coincide, which
    [keygen] allows: the pair below is returned by [keygen 5] when both
    draws are [23]; it has [N = 23 * 23] and [3 * 323 mod (22 * 22) = 1], yet
    the message [23] encodes to [0].  And when an exponent has more binary
    digits than the recursion limit leaves calls: with the primes [3] and
    [11] and the private exponent [7 + 20 * 2^1100], which also has
    [e*d mod 20 = 1], decoding raises [RecursionError] under the default
    limit. *)
Lemma roundtrip_counterexamples :
  (keygen_lim default_limit default_limit 5 5 [7; 7]
   = Ok (((529, 3), (529, 323)), []) /\
   Z.prime 23 /\ 529 = 23 * 23 /\ (3 * 323) mod ((23 - 1) * (23 - 1)) = 1 /\
   0 <= 23 < 529 /\
   encode default_limit (529, 3) 23 = Ok 0 /\
   decode default_limit (529, 323) 0 = Ok 0 /\
   ~ (exists c, encode default_limit (529, 3) 23 = Ok c /\
                decode default_limit (529, 323) c = Ok 23)) /\
  (Z.prime 3 /\ Z.prime 11 /\ 3 <> 11 /\
   (3 * (7 + 20 * 2 ^ 1100)) mod ((3 - 1) * (11 - 1)) = 1 /\
   0 <= 17 < 3 * 11 /\
   encode default_limit (3 * 11, 3) 17 = Ok 29 /\
   decode default_limit (3 * 11, 7 + 20 * 2 ^ 1100) 29 = Raise RecursionError).
Proof.
  split.
  - split; [vm_compute; reflexivity|].
    split; [apply trial_division_prime; reflexivity|].
    repeat split; try lia.
    intros (c & Hc & Hd). vm_compute in Hc. injection Hc as <-.
    vm_compute in Hd. discriminate Hd.
  - split; [apply trial_division_prime; reflexivity|].
    split; [apply trial_division_prime; reflexivity|].
    split; [lia|]. repeat split; try lia; vm_compute; reflexivity.
Qed.

(** * Further properties *)

(** ** modexp: closed form, recursion depth, range *)

Lemma modexp_rec_more_limit (x N : Z) (limit limit' : nat) (y : Z) :
  (limit <= limit')%nat ->
  modexp_rec limit x y N <> Raise RecursionError ->
  modexp_rec limit' x y N = modexp_rec limit x y N.
Proof.
  revert limit' y. induction limit as [|limit IH]; intros limit' y Hle Hfin.
  - contradiction Hfin. reflexivity.
  - destruct limit' as [|limit']; [lia|].
    cbn [modexp_rec] in *.
    destruct (y =? 0); [reflexivity|].
    rewrite (IH limit' (y / 2)); [reflexivity | lia |].
    intros Hrec. rewrite Hrec in Hfin. apply Hfin. reflexivity.
Qed.

Lemma log2_half (y : Z) : 2 <= y -> Z.log2 (y / 2) = Z.log2 y - 1.
Proof.
  intros Hy. change 2 with (2 ^ 1) at 1.
  rewrite <- Z.shiftr_div_pow2, Z.log2_shiftr by lia.
  assert (1 <= Z.log2 y) by (apply Z.log2_le_pow2; cbn; lia). lia.
Qed.

Lemma modexp_rec_too_shallow (x N : Z) (limit : nat) (y : Z) :
  0 < y -> (limit < modexp_depth y)%nat ->
  modexp_rec limit x y N = Raise RecursionError.
Proof.
  unfold modexp_depth. revert y.
  induction limit as [|limit IH]; intros y Hy Hl; [reflexivity|].
  cbn [modexp_rec]. destruct (Z.eqb_spec y 0) as [?|_]; [lia|].
  destruct (Z.eq_dec y 1) as [->|Hne].
  - change (Z.log2 1) with 0 in Hl. assert (limit = 0%nat) as -> by lia. reflexivity.
  - rewrite IH; [reflexivity | apply Z.div_str_pos; lia |].
    rewrite log2_half by lia.
    assert (1 <= Z.log2 y) by (apply Z.log2_le_pow2; cbn; lia). lia.
Qed.

(** On a stack that is deep enough: the outcome of [modexp] in closed form, for all integer arguments:
    [1] for [y = 0] (whatever [N]), [RecursionError] for [y < 0],
    [ZeroDivisionError] for [y > 0] and [N = 0], and [x^y mod N]
    otherwise. *)
Lemma modexp_outcome (x y N : Z) :
  modexp x y N =
  if y =? 0 then Ok 1
  else if y <? 0 then Raise RecursionError
  else if N =? 0 then Raise ZeroDivisionError
  else Ok (x ^ y mod N).
Proof.
  destruct (Z.eqb_spec y 0) as [->|Hy0]; [reflexivity|].
  destruct (Z.ltb_spec y 0) as [Hneg|Hpos].
  - apply modexp_negative, Hneg.
  - destruct (Z.eqb_spec N 0) as [->|HN].
    + apply modexp_zero_modulus. lia.
    + apply modexp_spec; [lia | exact HN | left; exact Hy0].
Qed.

(** X2: for [y > 0] the recursion of [modexp] is exactly
    [bit_length y + 1] calls deep: under any smaller limit the call raises
    [RecursionError], and under any larger one the outcome is that of
    [modexp]. *)
Theorem modexp_recursion_depth (x y N : Z) (limit : nat) :
  0 < y ->
  modexp_depth y = Z.to_nat (bit_length y + 1) /\
  ((limit < modexp_depth y)%nat ->
   modexp_rec limit x y N = Raise RecursionError) /\
  ((modexp_depth y <= limit)%nat ->
   modexp_rec limit x y N = modexp x y N).
Proof.
  intros Hy. split; [|split].
  - unfold modexp_depth, bit_length.
    destruct (Z.eqb_spec y 0) as [?|_]; [lia|].
    rewrite Z.abs_eq by lia. pose proof (Z.log2_nonneg y). lia.
  - apply modexp_rec_too_shallow, Hy.
  - intros Hl. apply modexp_rec_more_limit; [exact Hl|].
    fold (modexp x y N). destruct (Z.eq_dec N 0) as [->|HN].
    + rewrite modexp_zero_modulus by exact Hy. discriminate.
    + rewrite modexp_spec by lia. discriminate.
Qed.

Lemma modexp_recursion_depth_witness :
  0 < 5 /\
  modexp_rec 3 2 5 7 = Raise RecursionError /\
  modexp_rec 4 2 5 7 = modexp 2 5 7.
Proof.
  split; [lia|].
  destruct (modexp_recursion_depth 2 5 7 3 ltac:(lia)) as (_ & Hlow & _).
  destruct (modexp_recursion_depth 2 5 7 4 ltac:(lia)) as (_ & _ & Hhigh).
  split; [apply Hlow | apply Hhigh]; vm_compute; lia.
Defined.

(** ** extended_euclid and modinv on all integers *)

(** On a stack that is deep enough: for all integers [a] and [b], negative ones included,
    [extended_euclid a b] returns [(m, n, d)] with [m*a + n*b = d] and
    [|d| = gcd a b]; [d] is the gcd itself for [b > 0], the gcd negated for
    [b < 0], and [a] for [b = 0]. *)
Lemma extended_euclid_all_integers (a b : Z) :
  exists m n d,
    extended_euclid a b = (m, n, d) /\
    m * a + n * b = d /\
    Z.abs d = Z.gcd a b /\
    d = (if 0 <? b then Z.gcd a b else if b <? 0 then - Z.gcd a b else a).
Proof.
  pose proof (extended_euclid_bezout a b) as Hbez.
  assert (snd (extended_euclid a b) =
          if 0 <? b then Z.gcd a b else if b <? 0 then - Z.gcd a b else a) as Hd.
  { destruct (Z.ltb_spec 0 b) as [Hpos|Hle].
    - apply extended_euclid_gcd; lia.
    - destruct (Z.ltb_spec b 0) as [Hneg|Hge].
      + apply extended_euclid_gcd_neg; lia.
      + assert (b = 0) as -> by lia. rewrite extended_euclid_eq. reflexivity. }
  destruct (extended_euclid a b) as [[m n] d]. cbn [snd] in Hd.
  exists m, n, d. repeat split; try assumption.
  rewrite Hd. pose proof (Z.gcd_nonneg a b).
  destruct (Z.ltb_spec 0 b) as [Hpos|Hle]; [lia|].
  destruct (Z.ltb_spec b 0) as [Hneg|Hge]; [lia|].
  assert (b = 0) as -> by lia. rewrite Z.gcd_0_r. reflexivity.
Qed.

(** Inverses modulo [N] are unique among the residues. *)
Lemma inverse_unique (a N x x' : Z) :
  1 <= N -> 0 <= x < N -> 0 <= x' < N ->
  (a * x) mod N = 1 mod N -> (a * x') mod N = 1 mod N -> x = x'.
Proof.
  intros HN Hx Hx' H H'.
  rewrite <- (Z.mod_small x N), <- (Z.mod_small x' N) by assumption.
  rewrite <- (Z.mul_1_r x) at 1. rewrite <- (Z.mul_1_r x').
  rewrite <- Z.mul_mod_idemp_r, <- H', Z.mul_mod_idemp_r by lia.
  rewrite <- (Z.mul_mod_idemp_r x' 1), <- H, Z.mul_mod_idemp_r by lia.
  f_equal. lia.
Qed.

Lemma modinv_returns (a N x : Z) :
  modinv a N = Ok x ->
  1 <= N /\ Z.gcd a N = 1 /\ 0 <= x < N /\ (a * x) mod N = 1 mod N.
Proof.
  intros H. pose proof (modinv_ok_coprime a N x H) as Hg.
  assert (1 <= N) as HN.
  { destruct (Z.lt_trichotomy N 0) as [Hneg|[->|Hpos]]; [| |lia].
    - assert (modinv a N = Raise ZeroDivisor) as Hr.
      { apply modinv_raises_iff. rewrite extended_euclid_gcd_neg by lia.
        pose proof (Z.gcd_nonneg a N). lia. }
      congruence.
    - revert H. unfold modinv. rewrite extended_euclid_eq. cbn [Z.eqb].
      unfold pymod. cbn [Z.eqb]. destruct (negb (a =? 1)); discriminate. }
  destruct (modinv_coprime a N HN Hg) as (x' & Hx' & Hr & Hm).
  rewrite H in Hx'. injection Hx' as <-. auto.
Qed.

(** X5: whenever [modinv a N] returns [x], for any integers [a] and [N],
    the modulus is at least [1], [gcd a N = 1], [x] lies in [0 .. N-1] and
    [a*x mod N = 1 mod N]; and [x] is the only residue with that
    property. *)
Theorem modinv_sound (a N x : Z) :
  modinv a N = Ok x ->
  1 <= N /\ Z.gcd a N = 1 /\ 0 <= x < N /\ (a * x) mod N = 1 mod N /\
  (forall x', 0 <= x' < N -> (a * x') mod N = 1 mod N -> x' = x).
Proof.
  intros H. destruct (modinv_returns a N x H) as (HN & Hg & Hx & Hm).
  repeat split; try assumption; try lia.
  intros x' Hx' Hm'. apply (inverse_unique a N); assumption.
Qed.

Lemma modinv_sound_witness :
  modinv 3 616 = Ok 411 /\ (3 * 411) mod 616 = 1 mod 616.
Proof.
  assert (H : modinv 3 616 = Ok 411) by (vm_compute; reflexivity).
  split; [exact H | apply (modinv_sound 3 616 411 H)].
Defined.

Lemma invertible_coprime (a N x : Z) :
  (a * x) mod N = 1 mod N -> Z.gcd x N = 1.
Proof.
  intros H. apply Z.cong_iff_ex in H as [k Hk].
  apply Z.coprime_Bezout. exists a, (- k). lia.
Qed.

(** On a stack that is deep enough: modulo [N >= 1], inverting twice gives back the residue of [a]:
    if [modinv a N] returns [x] then [modinv x N] returns [a mod N]. *)
Lemma modinv_involutive (a N x : Z) :
  modinv a N = Ok x -> modinv x N = Ok (a mod N).
Proof.
  intros H. destruct (modinv_returns a N x H) as (HN & Hg & Hx & Hm).
  pose proof (invertible_coprime a N x Hm) as Hgx.
  destruct (modinv_coprime x N HN Hgx) as (y & Hy & Hyr & Hym).
  rewrite Hy. f_equal.
  apply (inverse_unique x N); try assumption.
  - apply Z.mod_pos_bound. lia.
  - rewrite Z.mul_mod_idemp_r, Z.mul_comm by lia. exact Hm.
Qed.

(** X7: for [N >= 1], [modinv] sees its first argument only modulo [N]:
    [modinv (a mod N) N] and [modinv (a + k*N) N] are [modinv a N], in
    value and in failure. *)
Theorem modinv_residue (a N k : Z) :
  1 <= N ->
  modinv (a mod N) N = modinv a N /\ modinv (a + k * N) N = modinv a N.
Proof.
  intros HN.
  assert (forall b, b mod N = a mod N -> modinv b N = modinv a N) as Hcong.
  { intros b Hb. rewrite !modinv_positive_modulus by exact HN.
    assert (Z.gcd b N = Z.gcd a N) as Hgg.
    { rewrite (Z.gcd_comm b), (Z.gcd_comm a).
      rewrite <- (Z.gcd_mod b N), <- (Z.gcd_mod a N), Hb by lia. reflexivity. }
    rewrite Hgg. destruct (Z.eqb_spec (Z.gcd a N) 1) as [Hg|_]; [|reflexivity].
    destruct (modinv_coprime a N HN Hg) as (x & Hx & Hxr & Hxm).
    destruct (modinv_coprime b N HN ltac:(congruence)) as (y & Hy & Hyr & Hym).
    rewrite modinv_positive_modulus, Hg in Hx by exact HN.
    rewrite modinv_positive_modulus, Hgg, Hg in Hy by exact HN.
    cbn [Z.eqb Pos.eqb] in Hx, Hy. rewrite Hx, Hy. f_equal.
    apply (inverse_unique a N); try assumption.
    rewrite <- Z.mul_mod_idemp_l, <- Hb, Z.mul_mod_idemp_l by lia. exact Hym. }
  split; apply Hcong.
  - apply Z.mod_mod. lia.
  - apply Z.mod_add. lia.
Qed.

Lemma modinv_residue_witness :
  1 <= 7 /\ modinv (23 mod 7) 7 = modinv 23 7 /\ modinv (23 + 4 * 7) 7 = modinv 23 7.
Proof.
  split; [lia | apply (modinv_residue 23 7 4); lia].
Defined.

(** On a stack that is deep enough: with a modulus [N <= 0], [modinv] never returns: it raises
    [ZeroDivisionError] for [modinv 1 0], where the check passes and the
    final [m % N] divides by zero, and the zero-divisor error in every
    other case. *)
Lemma modinv_nonpositive (a N : Z) :
  N <= 0 ->
  modinv a N =
  if (N =? 0) && (a =? 1) then Raise ZeroDivisionError else Raise ZeroDivisor.
Proof.
  intros HN. destruct (Z.eqb_spec N 0) as [->|Hne]; cbn [andb].
  - unfold modinv. rewrite extended_euclid_eq. cbn [Z.eqb].
    destruct (Z.eqb_spec a 1) as [->|Ha]; reflexivity.
  - apply modinv_raises_iff. rewrite extended_euclid_gcd_neg by lia.
    pose proof (Z.gcd_nonneg a N). lia.
Qed.

(** ** fermat_test: coprimality, primes, drawn witnesses *)

Lemma passes_coprime (N a : Z) :
  2 <= N -> passes N a = true -> Z.gcd a N = 1.
Proof.
  intros HN Hp. apply passes_true_iff in Hp.
  apply (invertible_coprime (a ^ (N - 2)) N a).
  rewrite Z.mul_comm, <- Z.pow_succ_r, Z.mod_1_l by lia.
  replace (Z.succ (N - 2)) with (N - 1) by lia. exact Hp.
Qed.

Lemma passes_prime (N a : Z) :
  Z.prime N -> passes N a = negb (a mod N =? 0).
Proof.
  intros HN. pose proof (Z.prime_ge_2 N HN) as H2. unfold passes.
  destruct (Z.eqb_spec (a mod N) 0) as [H0|Hnz]; cbn [negb].
  - rewrite <- Z.mod_pow_l, H0, Z.pow_0_l, Z.mod_0_l by lia. reflexivity.
  - rewrite (Z.fermat_nz N a HN Hnz). reflexivity.
Qed.

(** On a stack that is deep enough: for [N >= 2], a witness that shares a factor with [N] always makes
    [fermat_test] return [false]; so when the test returns [true], every
    witness is coprime to [N]. *)
Lemma fermat_test_common_factor (N : Z) (ws tape : list Z) :
  2 <= N ->
  ((exists a, In a ws /\ Z.gcd a N <> 1) ->
   fermat_test N (Explicit ws) tape = Ok (false, tape)) /\
  (fermat_test N (Explicit ws) tape = Ok (true, tape) ->
   forall a, In a ws -> Z.gcd a N = 1).
Proof.
  intros HN. rewrite fermat_test_on_list, fermat_loop_forallb by exact HN.
  cbn [bind_result]. split.
  - intros (a & Ha & Hg).
    destruct (forallb (passes N) ws) eqn:Hall; [|reflexivity].
    rewrite forallb_forall in Hall.
    contradiction Hg. apply passes_coprime; auto.
  - intros H a Ha. apply passes_coprime; [exact HN|].
    assert (forallb (passes N) ws = true) as Hall by congruence.
    rewrite forallb_forall in Hall. auto.
Qed.

(** On a stack that is deep enough: for a prime [N], [fermat_test] on an explicit collection returns
    [false] exactly when some witness is a multiple of [N]; witnesses
    that are not multiples of [N] never reject a prime. *)
Lemma fermat_test_prime (N : Z) (ws tape : list Z) :
  Z.prime N ->
  fermat_test N (Explicit ws) tape
  = Ok (forallb (fun a => negb (a mod N =? 0)) ws, tape) /\
  ((forall a, In a ws -> a mod N <> 0) ->
   fermat_test N (Explicit ws) tape = Ok (true, tape)).
Proof.
  intros HN. pose proof (Z.prime_ge_2 N HN) as H2.
  rewrite fermat_test_on_list, fermat_loop_forallb by exact H2.
  cbn [bind_result].
  rewrite (forallb_agree (passes N) (fun a => negb (a mod N =? 0)))
    by (intros a _; apply passes_prime, HN).
  split; [reflexivity|].
  intros Hnz. do 2 f_equal. apply forallb_forall. intros a Ha.
  destruct (Z.eqb_spec (a mod N) 0) as [H0|_]; [|reflexivity].
  contradiction (Hnz a Ha).
Qed.

Lemma fermat_test_count_eq (N k : Z) (tape : list Z) :
  2 <= N -> (Z.to_nat k <= length tape)%nat ->
  fermat_test N (Count k) tape
  = Ok (forallb (passes N) (map (fun r => 1 + r mod (N - 1)) (firstn (Z.to_nat k) tape)),
        skipn (Z.to_nat k) tape).
Proof.
  intros HN Hk. unfold fermat_test, bind.
  rewrite draw_witnesses_eq by assumption.
  unfold lift. rewrite fermat_loop_forallb by exact HN. reflexivity.
Qed.

(** On a stack that is deep enough: with a count [k] and [N >= 2], all [k] witnesses are drawn from
    [1 .. N-1] before any is tested: the call consumes exactly [k] draws,
    whether or not an early witness fails, and returns [false] exactly
    when some drawn witness [a] has [a^(N-1) mod N <> 1]. *)
Lemma fermat_test_count (N k : Z) (tape : list Z) :
  2 <= N -> (Z.to_nat k <= length tape)%nat ->
  exists ws,
    draw_witnesses (Z.to_nat k) N tape = Ok (ws, skipn (Z.to_nat k) tape) /\
    length ws = Z.to_nat k /\
    (forall a, In a ws -> 1 <= a <= N - 1) /\
    fermat_test N (Count k) tape
    = Ok (forallb (passes N) ws, skipn (Z.to_nat k) tape) /\
    (fermat_test N (Count k) tape = Ok (false, skipn (Z.to_nat k) tape) <->
     exists a, In a ws /\ a ^ (N - 1) mod N <> 1).
Proof.
  intros HN Hk.
  exists (map (fun r => 1 + r mod (N - 1)) (firstn (Z.to_nat k) tape)).
  rewrite fermat_test_count_eq, draw_witnesses_eq by assumption.
  split; [reflexivity|]. split.
  { rewrite length_map, length_firstn. lia. }
  split; [intros a Ha; apply (drawn_in_range N _ a HN Ha)|].
  split; [reflexivity|].
  rewrite <- forallb_passes_false. split; [congruence | intros ->; reflexivity].
Qed.

(** On a stack that is deep enough: a prime [N] always passes the randomized test: for every count
    [k] and every tape holding at least [k] draws, [fermat_test N k]
    returns [true] after consuming [k] draws. *)
Lemma fermat_test_count_prime (N k : Z) (tape : list Z) :
  Z.prime N -> (Z.to_nat k <= length tape)%nat ->
  fermat_test N (Count k) tape = Ok (true, skipn (Z.to_nat k) tape).
Proof.
  intros HN Hk. pose proof (Z.prime_ge_2 N HN) as H2.
  rewrite fermat_test_count_eq by assumption. do 2 f_equal.
  apply forallb_forall. intros a Ha.
  apply (drawn_in_range N _ a H2) in Ha.
  rewrite passes_prime, Z.mod_small by (assumption || lia).
  destruct (Z.eqb_spec a 0); [lia | reflexivity].
Qed.

(** X13: the edges of the count: a count [k <= 0] draws nothing and
    returns [true] for every [N]; a count [k >= 1] with [N <= 1] raises
    [ValueError], because the interval [1 .. N-1] of [randint] is empty. *)
Theorem fermat_test_count_edges (N k : Z) (tape : list Z) :
  (k <= 0 -> fermat_test N (Count k) tape = Ok (true, tape)) /\
  (1 <= k -> N <= 1 -> fermat_test N (Count k) tape = Raise ValueError).
Proof.
  split.
  - intros Hk. unfold fermat_test.
    replace (Z.to_nat k) with 0%nat by lia. reflexivity.
  - intros Hk HN. unfold fermat_test.
    destruct (Z.to_nat k) as [|n] eqn:Hn; [lia|].
    cbn [draw_witnesses]. unfold bind at 1 2. unfold randint.
    destruct (Z.ltb_spec (N - 1) 1) as [_|?]; [reflexivity | lia].
Qed.

(** ** randprime: which candidate is returned, and which never is *)

Lemma fermat_test_trial (n : Z) (b : bool) :
  fermat_test n (Explicit trial_witnesses) [] = Ok (b, []) <->
  fermat_loop n trial_witnesses = Ok b.
Proof.
  rewrite fermat_test_on_list.
  destruct (fermat_loop n trial_witnesses) as [b'| |]; cbn [bind_result];
    split; intros H; try discriminate H; congruence.
Qed.

Lemma randprime_rejects (fuel : nat) (lower upper c : Z) (tape : list Z) :
  lower <= c <= upper -> fermat_loop c trial_witnesses = Ok false ->
  randprime (S fuel) lower upper ((c - lower) :: tape) = randprime fuel lower upper tape.
Proof.
  intros Hc Ht. rewrite randprime_step, randint_any, Ht by exact Hc. reflexivity.
Qed.

(** On a stack that is deep enough: rejection sampling returns the first candidate that passes: when
    the tape draws candidates of [lower .. upper] that all fail the test on
    the trial witnesses, followed by a candidate [v] that passes,
    [randprime] returns [v], having used one draw for each candidate and
    none of the rest. *)
Lemma randprime_first_accepted (fuel : nat) (lower upper : Z)
    (rejected : list Z) (v : Z) (rest : list Z) :
  (length rejected <= fuel)%nat ->
  (forall c, In c rejected ->
             lower <= c <= upper /\
             fermat_test c (Explicit trial_witnesses) [] = Ok (false, [])) ->
  lower <= v <= upper ->
  fermat_test v (Explicit trial_witnesses) [] = Ok (true, []) ->
  randprime (S fuel) lower upper
            (map (fun c => c - lower) (rejected ++ [v]) ++ rest)
  = Ok (v, rest).
Proof.
  intros Hfuel Hrej Hv Hpass. apply fermat_test_trial in Hpass.
  revert fuel Hfuel. induction rejected as [|c rejected IH]; intros fuel Hfuel.
  - cbn [app map]. apply randprime_accepts; assumption.
  - destruct fuel as [|fuel]; [cbn in Hfuel; lia|].
    cbn [app map]. destruct (Hrej c (or_introl eq_refl)) as [Hc Hfail].
    apply fermat_test_trial in Hfail.
    rewrite randprime_rejects by assumption.
    apply IH; [|cbn in Hfuel; lia].
    intros c' Hc'. apply Hrej. right. exact Hc'.
Qed.

Lemma fermat_loop_nonpositive (N a : Z) (ws : list Z) :
  N <= 0 -> fermat_loop N (a :: ws) = Raise RecursionError.
Proof.
  intros HN. cbn [fermat_loop]. rewrite modexp_negative by lia. reflexivity.
Qed.

Lemma fermat_loop_below_23 (n : Z) :
  2 <= n < 23 -> fermat_loop n trial_witnesses = Ok false.
Proof.
  intros Hn.
  pose proof (Zrange_forall
                (fun n => match fermat_loop n trial_witnesses with
                          | Ok false => true
                          | _ => false
                          end) 2 21 ltac:(vm_compute; reflexivity) n ltac:(lia)) as H.
  cbv beta in H.
  destruct (fermat_loop n trial_witnesses) as [[|]| |]; try discriminate H.
  reflexivity.
Qed.

Lemma randprime_value (fuel : nat) (lower upper : Z) (tape : list Z)
    (v : Z) (tape' : list Z) :
  randprime fuel lower upper tape = Ok (v, tape') ->
  v = 1 \/ (23 <= v /\ forall a, In a trial_witnesses -> Z.gcd a v = 1).
Proof.
  intros H. apply randprime_sound in H as [_ Ht].
  destruct (Z_le_gt_dec v 0) as [Hle|Hpos].
  - unfold trial_witnesses in Ht. rewrite fermat_loop_nonpositive in Ht by exact Hle.
    discriminate Ht.
  - destruct (Z.eq_dec v 1) as [->|Hne]; [left; reflexivity | right].
    split.
    + destruct (Z_lt_le_dec v 23) as [Hlt|Hge]; [|exact Hge].
      rewrite fermat_loop_below_23 in Ht by lia. discriminate Ht.
    + rewrite fermat_loop_forallb in Ht by lia.
      assert (forallb (passes v) trial_witnesses = true) as Hall by congruence.
      intros a Ha. apply passes_coprime; [lia|].
      exact (proj1 (forallb_forall _ _) Hall a Ha).
Qed.

(** X15: whatever the interval and the draws, a value [v] returned by
    [randprime] is [1], or else it is at least [23] and coprime to each of
    the eight trial witnesses; so no number of [2 .. 22], and none of the
    primes [2, 3, 5, 7, 11, 13, 17, 19], is ever returned. *)
Theorem randprime_never_small (fuel : nat) (lower upper : Z) (tape : list Z)
    (v : Z) (tape' : list Z) :
  randprime fuel lower upper tape = Ok (v, tape') ->
  (v = 1 \/ 23 <= v) /\
  (v <> 1 -> forall a, In a [2; 3; 5; 7; 11; 13; 17; 19] -> Z.gcd a v = 1) /\
  ~ In v [2; 3; 5; 7; 11; 13; 17; 19].
Proof.
  intros H. destruct (randprime_value _ _ _ _ _ _ H) as [->|[H23 Hco]].
  - split; [left; reflexivity|]. split; [intros Hne; contradiction Hne; reflexivity|].
    cbn. intuition discriminate.
  - split; [right; exact H23|]. split; [intros _; exact Hco|].
    cbn. intros Hin. repeat (destruct Hin as [Hin|Hin]; [lia|]). exact Hin.
Qed.

Lemma randprime_never_small_witness :
  randprime 2 16 31 [3; 13] = Ok (29, []) /\ (29 = 1 \/ 23 <= 29).
Proof.
  assert (H : randprime 2 16 31 [3; 13] = Ok (29, [])) by (vm_compute; reflexivity).
  split; [exact H | apply (randprime_never_small 2 16 31 [3; 13] 29 [] H)].
Defined.

(** X16: the errors of [randprime]: an empty interval makes the first
    [randint] raise [ValueError]; a drawn candidate [c <= 0] makes the
    test call [modexp] with a negative exponent, and the
    [RecursionError] ends the loop. *)
Theorem randprime_errors (fuel : nat) (lower upper : Z) (tape : list Z) :
  (upper < lower -> randprime (S fuel) lower upper tape = Raise ValueError) /\
  (forall c, lower <= c <= upper -> c <= 0 ->
             randprime (S fuel) lower upper ((c - lower) :: tape)
             = Raise RecursionError).
Proof.
  split.
  - intros Hemp. rewrite randprime_step. unfold randint.
    destruct (Z.ltb_spec upper lower) as [_|?]; [reflexivity | lia].
  - intros c Hc Hneg. rewrite randprime_step, randint_any by exact Hc.
    unfold trial_witnesses. rewrite fermat_loop_nonpositive by exact Hneg.
    reflexivity.
Qed.

(** X17: a value returned by [randprime] need not be prime: the Carmichael
    number [252601 = 41 * 61 * 101], coprime to every trial witness, passes
    the test and is returned. *)
Theorem randprime_returns_composite :
  exists v tape tape',
    randprime 1 v v tape = Ok (v, tape') /\ 1 < v /\ ~ Z.prime v /\
    v = 41 * 61 * 101.
Proof.
  exists 252601, [0], []. split; [vm_compute; reflexivity|].
  split; [lia|]. split; [|reflexivity].
  intros [_ Hp]. apply (Hp 41); [lia|]. exists 6161. reflexivity.
Qed.

(** ** keygen: the exponent search, the keys, and their use *)

Lemma modinv_finishes (a N : Z) : modinv a N <> Unfinished.
Proof.
  unfold modinv. destruct (extended_euclid a N) as [[m n] d].
  destruct (negb (d =? 1)); [discriminate|].
  unfold pymod. destruct (N =? 0); discriminate.
Qed.

(** The search stops at or before any exponent that [modinv] accepts. *)
Lemma exponent_search_finds (fuel : nat) (e0 e1 phi d1 : Z) :
  e0 <= e1 -> modinv e1 phi = Ok d1 -> (Z.to_nat (e1 - e0) < fuel)%nat ->
  exists e d, exponent_search fuel e0 phi = Ok (e, d) /\ e0 <= e <= e1.
Proof.
  revert e0. induction fuel as [|fuel IH]; intros e0 Hle H1 Hfuel; [lia|].
  cbn [exponent_search].
  destruct (modinv e0 phi) as [d0|err|] eqn:H0.
  - exists e0, d0. split; [reflexivity | lia].
  - assert (e0 <> e1) as Hne by congruence.
    destruct (IH (e0 + 1) ltac:(lia) H1 ltac:(lia)) as (e & d & Hs & Hr).
    exists e, d. split; [exact Hs | lia].
  - contradiction (modinv_finishes e0 phi H0).
Qed.

Lemma successor_coprime (phi : Z) : Z.gcd (phi + 1) phi = 1.
Proof. apply Z.coprime_Bezout. exists 1, (-1). lia. Qed.

Lemma exponent_search_positive (fuel : nat) (phi : Z) :
  1 <= phi -> (Z.to_nat phi <= fuel)%nat ->
  exists e d, exponent_search fuel 3 phi = Ok (e, d) /\ 3 <= e <= Z.max 3 (phi + 1).
Proof.
  intros Hphi Hfuel.
  assert (Z.gcd (Z.max 3 (phi + 1)) phi = 1) as Hg.
  { destruct (Z.max_spec 3 (phi + 1)) as [[_ ->]|[Hsmall ->]].
    - apply successor_coprime.
    - assert (phi = 1 \/ phi = 2) as [->| ->] by lia; reflexivity. }
  destruct (modinv_coprime _ phi Hphi Hg) as (d1 & Hd1 & _).
  apply (exponent_search_finds fuel 3 _ phi d1); [lia | exact Hd1 | lia].
Qed.

(** X18: the exponent search of [keygen] on a modulus [phi >= 1] ends
    within [phi] iterations, at the least [e >= 3] coprime to [phi], which
    is at most [max 3 (phi + 1)], with [d] in [0 .. phi-1] and
    [e*d mod phi = 1 mod phi]; on a modulus [phi <= 0] it never ends. *)
Theorem exponent_search_terminates (fuel : nat) (phi : Z) :
  (1 <= phi -> (Z.to_nat phi <= fuel)%nat ->
   exists e d,
     exponent_search fuel 3 phi = Ok (e, d) /\
     3 <= e <= Z.max 3 (phi + 1) /\
     Z.gcd e phi = 1 /\
     (forall e', 3 <= e' < e -> Z.gcd e' phi <> 1) /\
     0 <= d < phi /\ (e * d) mod phi = 1 mod phi) /\
  (phi <= 0 -> exponent_search fuel 3 phi = Unfinished).
Proof.
  split.
  - intros Hphi Hfuel.
    destruct (exponent_search_positive fuel phi Hphi Hfuel) as (e & d & Hs & He).
    exists e, d. split; [exact Hs|]. split; [exact He|].
    apply exponent_search_returns in Hs as (_ & Hd & Hmin).
    destruct (modinv_returns e phi d Hd) as (_ & Hg & Hr & Hm).
    repeat split; try assumption; try lia.
    intros e' He' Hg'.
    destruct (modinv_coprime e' phi Hphi Hg') as (x & Hx & _).
    exact (Hmin e' He' x Hx).
  - intros Hphi. generalize 3 as e. induction fuel as [|fuel IH]; intros e; [reflexivity|].
    cbn [exponent_search].
    destruct (modinv e phi) as [d|err|] eqn:Hd.
    + apply modinv_returns in Hd. lia.
    + apply IH.
    + reflexivity.
Qed.

Lemma keygen_inversion (fuel : nat) (nbits : Z) (tape : list Z)
    (N e N' d : Z) (tape' : list Z) :
  keygen fuel nbits tape = Ok (((N, e), (N', d)), tape') ->
  1 <= nbits /\
  exists p q tape1,
    randprime fuel (2 ^ (nbits - 1)) (2 ^ nbits - 1) tape = Ok (p, tape1) /\
    randprime fuel (2 ^ (nbits - 1)) (2 ^ nbits - 1) tape1 = Ok (q, tape') /\
    N = p * q /\ N' = p * q /\
    exponent_search fuel 3 ((p - 1) * (q - 1)) = Ok (e, d).
Proof.
  unfold keygen. destruct (Z.ltb_spec nbits 1) as [?|Hn]; [discriminate|].
  cbv zeta. unfold bind at 1.
  destruct (randprime fuel _ _ tape) as [[p tape1]| |] eqn:Hp; try discriminate.
  unfold bind at 1.
  destruct (randprime fuel _ _ tape1) as [[q tape2]| |] eqn:Hq; try discriminate.
  unfold bind, lift, ret.
  destruct (exponent_search fuel 3 ((p - 1) * (q - 1))) as [[e0 d0]| |] eqn:Hs;
    cbn [bind_result fst snd]; try discriminate.
  intros [= <- <- <- <- <-]. split; [exact Hn|].
  exists p, q, tape1. repeat split; assumption.
Qed.

(** What the two values drawn by a successful [keygen] satisfy. *)
Lemma keygen_primes (fuel : nat) (nbits : Z) (tape : list Z)
    (N e N' d : Z) (tape' : list Z) :
  keygen fuel nbits tape = Ok (((N, e), (N', d)), tape') ->
  exists p q,
    N = p * q /\ N' = p * q /\
    2 ^ (nbits - 1) <= p <= 2 ^ nbits - 1 /\
    2 ^ (nbits - 1) <= q <= 2 ^ nbits - 1 /\
    23 <= p /\ 23 <= q /\
    (forall a, In a trial_witnesses -> Z.gcd a p = 1 /\ Z.gcd a q = 1) /\
    exponent_search fuel 3 ((p - 1) * (q - 1)) = Ok (e, d).
Proof.
  intros H. apply keygen_inversion in H as (Hn & p & q & t1 & Hp & Hq & HN & HN' & Hs).
  assert (0 < 2 ^ (nbits - 1)) as Hpos by (apply Z.pow_pos_nonneg; lia).
  pose proof (randprime_sound _ _ _ _ _ _ Hp) as [Hpr _].
  pose proof (randprime_sound _ _ _ _ _ _ Hq) as [Hqr _].
  assert (p <> 1 /\ q <> 1) as [Hp1 Hq1].
  { split; intros ->;
      [replace ((1 - 1) * (q - 1)) with 0 in Hs by lia
      |replace ((p - 1) * (1 - 1)) with 0 in Hs by lia];
      rewrite exponent_search_zero_modulus in Hs by lia; discriminate Hs. }
  exists p, q.
  destruct (randprime_value _ _ _ _ _ _ Hp) as [?|[Hp23 Hpc]]; [contradiction|].
  destruct (randprime_value _ _ _ _ _ _ Hq) as [?|[Hq23 Hqc]]; [contradiction|].
  repeat split; try assumption; try lia; auto.
Qed.

(** X19: [keygen] never returns a small key: whenever it returns, [nbits]
    is at least [5], both keys carry the same modulus [N >= 529 = 23 * 23],
    and [N] is coprime to each of [2, 3, 5, 7, 11, 13, 17, 19]; for
    [nbits <= 4] the call never returns. *)
Theorem keygen_never_small (fuel : nat) (nbits : Z) (tape : list Z)
    (N e N' d : Z) (tape' : list Z) :
  keygen fuel nbits tape = Ok (((N, e), (N', d)), tape') ->
  5 <= nbits /\ N' = N /\ 529 <= N /\
  forall a, In a [2; 3; 5; 7; 11; 13; 17; 19] -> Z.gcd a N = 1.
Proof.
  intros H.
  apply keygen_primes in H
    as (p & q & -> & -> & Hpr & Hqr & Hp23 & Hq23 & Hco & _).
  split; [|split; [reflexivity|split; [nia|]]].
  - destruct (Z_le_gt_dec nbits 4) as [Hsmall|?]; [|lia].
    pose proof (Z.pow_le_mono_r 2 nbits 4 ltac:(lia) Hsmall) as Hpow.
    change (2 ^ 4) with 16 in Hpow. lia.
  - intros a Ha. destruct (Hco a Ha) as [Hap Haq].
    apply Z.coprime_mul_r; assumption.
Qed.

Lemma keygen_never_small_witness :
  keygen 5 5 [7; 13] = Ok (((667, 3), (667, 411)), []) /\ 5 <= 5 /\ 529 <= 667.
Proof.
  assert (H : keygen 5 5 [7; 13] = Ok (((667, 3), (667, 411)), []))
    by (vm_compute; reflexivity).
  destruct (keygen_never_small 5 5 [7; 13] 667 3 667 411 [] H) as (Hn & _ & HN & _).
  split; [exact H | split; assumption].
Defined.

(** X20: the exponents of a generated key pair are smaller than the
    modulus: whenever [keygen] returns [((N, e), (N, d))], with
    [phi = (p-1)(q-1)] for the drawn [p] and [q], [3 <= e <= phi + 1],
    [1 <= d < phi] and [phi < N]. *)
Theorem keygen_exponent_bounds (fuel : nat) (nbits : Z) (tape : list Z)
    (N e N' d : Z) (tape' : list Z) :
  keygen fuel nbits tape = Ok (((N, e), (N', d)), tape') ->
  3 <= e < N /\ 1 <= d < N /\
  exists p q,
    N = p * q /\ 3 <= e <= (p - 1) * (q - 1) + 1 /\
    1 <= d < (p - 1) * (q - 1) /\ (p - 1) * (q - 1) < N.
Proof.
  intros H.
  apply keygen_primes in H
    as (p & q & -> & _ & _ & _ & Hp23 & Hq23 & _ & Hs).
  set (phi := (p - 1) * (q - 1)) in *.
  assert (484 <= phi) as Hphi by (unfold phi; nia).
  assert (phi < p * q) as HphiN by (unfold phi; nia).
  apply exponent_search_returns in Hs as (He & Hd & Hmin).
  destruct (modinv_returns e phi d Hd) as (_ & Hg & Hr & Hm).
  assert (e <= phi + 1) as Hup.
  { destruct (Z_le_gt_dec e (phi + 1)) as [?|Hgt]; [assumption|].
    destruct (modinv_coprime (phi + 1) phi ltac:(lia) (successor_coprime phi))
      as (x & Hx & _).
    contradiction (Hmin (phi + 1) ltac:(lia) x Hx). }
  assert (d <> 0) as Hd0.
  { intros ->. rewrite Z.mul_0_r, Z.mod_0_l, Z.mod_1_l in Hm by lia. discriminate Hm. }
  split; [lia|]. split; [lia|].
  exists p, q. repeat split; lia || reflexivity.
Qed.

Lemma keygen_exponent_bounds_witness :
  keygen 5 5 [15; 15] = Ok (((961, 7), (961, 643)), []) /\
  3 <= 7 < 961 /\ 1 <= 643 < 961.
Proof.
  assert (H : keygen 5 5 [15; 15] = Ok (((961, 7), (961, 643)), []))
    by (vm_compute; reflexivity).
  destruct (keygen_exponent_bounds 5 5 [15; 15] 961 7 961 643 [] H) as (He & Hd & _).
  split; [exact H | split; assumption].
Defined.

(** On a stack that is deep enough: [keygen] returns as soon as the draws allow it: for [nbits >= 1],
    when the first two draws are candidates [p >= 2] and [q >= 2] of
    [2^(nbits-1) .. 2^nbits - 1] that pass the test on the trial
    witnesses, and the budget covers [(p-1)(q-1)] iterations, [keygen]
    returns a pair of keys with the modulus [p*q], using those two draws
    only. *)
Lemma keygen_completes (fuel : nat) (nbits p q : Z) (rest : list Z) :
  1 <= nbits ->
  2 ^ (nbits - 1) <= p <= 2 ^ nbits - 1 ->
  2 ^ (nbits - 1) <= q <= 2 ^ nbits - 1 ->
  2 <= p -> 2 <= q ->
  fermat_test p (Explicit trial_witnesses) [] = Ok (true, []) ->
  fermat_test q (Explicit trial_witnesses) [] = Ok (true, []) ->
  (Z.to_nat ((p - 1) * (q - 1)) <= fuel)%nat ->
  exists e d,
    keygen fuel nbits ((p - 2 ^ (nbits - 1)) :: (q - 2 ^ (nbits - 1)) :: rest)
    = Ok (((p * q, e), (p * q, d)), rest).
Proof.
  intros Hn Hp Hq Hp2 Hq2 Hpt Hqt Hfuel.
  apply fermat_test_trial in Hpt, Hqt.
  assert (1 <= (p - 1) * (q - 1)) as Hphi by nia.
  destruct (exponent_search_positive fuel _ Hphi Hfuel) as (e & d & Hs & _).
  exists e, d. unfold keygen.
  destruct (Z.ltb_spec nbits 1) as [?|_]; [lia|]. cbv zeta.
  destruct fuel as [|fuel]; [lia|].
  unfold bind at 1. rewrite randprime_accepts by assumption.
  unfold bind at 1. rewrite randprime_accepts by assumption.
  unfold bind, lift. rewrite Hs. reflexivity.
Qed.

(** ** keygen on small or non-positive sizes *)

(** When every number of the interval lies in [2 .. 22], no draw is ever
    accepted. *)
Lemma randprime_hangs (fuel : nat) (lower upper : Z) (tape : list Z) :
  2 <= lower -> lower <= upper -> upper < 23 ->
  randprime fuel lower upper tape = Unfinished.
Proof.
  intros Hlo Hle Hup. revert tape.
  induction fuel as [|fuel IH]; intros tape; [reflexivity|].
  rewrite randprime_step.
  destruct (randint lower upper tape) as [[n tape1]|err|] eqn:Hdraw.
  - apply randint_range in Hdraw as [Hn _].
    rewrite fermat_loop_below_23 by lia. apply IH.
  - unfold randint in Hdraw.
    destruct (Z.ltb_spec upper lower) as [?|_]; [lia|].
    destruct tape; discriminate Hdraw.
  - reflexivity.
Qed.

(** X26: [keygen nbits] returns nothing for [nbits <= 4]: for
    [nbits <= 0] it raises at the first [randint], whose bound
    [2**(nbits-1)] is not an integer, and for [1 <= nbits <= 4] it runs
    for ever, whatever the draws and however long it is left to run,
    because no candidate below [23] other than [1] passes the test and
    the candidate [1] leaves the exponent search without a solution. *)
Theorem keygen_small_sizes (fuel : nat) (nbits : Z) (tape : list Z) :
  (nbits <= 0 -> keygen fuel nbits tape = Raise ValueError) /\
  (1 <= nbits <= 4 -> keygen fuel nbits tape = Unfinished).
Proof.
  split.
  - apply keygen_nonpositive_nbits.
  - intros Hn.
    destruct (Z.eq_dec nbits 1) as [->|Hne]; [apply keygen_one_bit|].
    assert (nbits = 2 \/ nbits = 3 \/ nbits = 4) as Hcases by lia.
    unfold keygen. destruct (Z.ltb_spec nbits 1) as [?|_]; [lia|].
    cbv zeta. unfold bind at 1.
    rewrite randprime_hangs; [reflexivity | | |];
      destruct Hcases as [->|[->| ->]]; cbn; lia.
Qed.

(** * Runs under a recursion limit *)

(** ** modexp *)

(** From the depth that the exponent needs on, the limit does not show. *)
Lemma modexp_rec_agrees (limit : nat) (x y N : Z) :
  (modexp_depth y <= limit)%nat -> modexp_rec limit x y N = modexp x y N.
Proof.
  intros Hl. destruct (Z_lt_le_dec y 0) as [Hneg|Hpos].
  - rewrite modexp_rec_negative, modexp_negative by exact Hneg. reflexivity.
  - apply modexp_rec_more_limit; [exact Hl|].
    fold (modexp x y N). rewrite modexp_outcome.
    destruct (y =? 0); [discriminate|].
    destruct (Z.ltb_spec y 0) as [?|_]; [lia|].
    destruct (N =? 0); discriminate.
Qed.

Lemma modexp_depth_mono (y y' : Z) :
  y <= y' -> (modexp_depth y <= modexp_depth y')%nat.
Proof.
  intros Hy. unfold modexp_depth.
  pose proof (Z.log2_le_mono y y' Hy). pose proof (Z.log2_nonneg y). lia.
Qed.

(** X1: the outcome of [modexp] in closed form, for all integer arguments
    and every recursion limit: [RecursionError] when the limit is [0], when
    [y < 0], or when [y > 0] needs more than [limit] nested calls (one per
    binary digit of [y], and one more); otherwise [1] for [y = 0] (whatever
    [N]), [ZeroDivisionError] for [N = 0], and [x^y mod N]. *)
Theorem modexp_rec_outcome (limit : nat) (x y N : Z) :
  modexp_rec limit x y N =
  if y =? 0 then (if (limit =? 0)%nat then Raise RecursionError else Ok 1)
  else if (y <? 0) || (limit <? modexp_depth y)%nat then Raise RecursionError
  else if N =? 0 then Raise ZeroDivisionError
  else Ok (x ^ y mod N).
Proof.
  destruct (Z.eqb_spec y 0) as [->|Hy0].
  - destruct limit; reflexivity.
  - destruct (Z.ltb_spec y 0) as [Hneg|Hpos]; cbn [orb].
    + apply modexp_rec_negative, Hneg.
    + destruct (Nat.ltb_spec limit (modexp_depth y)) as [Hlow|Hhigh].
      * apply modexp_rec_too_shallow; [lia | exact Hlow].
      * rewrite modexp_rec_agrees by exact Hhigh.
        destruct (Z.eqb_spec N 0) as [->|HN].
        -- apply modexp_zero_modulus. lia.
        -- apply modexp_spec; [lia | exact HN | left; exact Hy0].
Qed.

(** X3: for a modulus [N >= 1] and an exponent [y >= 1], [modexp] returns
    a value of [0 .. N-1] when the limit covers the depth that [y] needs,
    and under every limit the base matters only modulo [N]: the outcome,
    [RecursionError] included, is the same for [x], [x mod N] and
    [x + N]. *)
Theorem modexp_rec_range (limit : nat) (x y N : Z) :
  1 <= y -> 1 <= N ->
  ((modexp_depth y <= limit)%nat ->
   exists r, modexp_rec limit x y N = Ok r /\ 0 <= r < N) /\
  modexp_rec limit (x mod N) y N = modexp_rec limit x y N /\
  modexp_rec limit (x + N) y N = modexp_rec limit x y N.
Proof.
  intros Hy HN.
  assert (forall x', x' mod N = x mod N ->
                     modexp_rec limit x' y N = modexp_rec limit x y N) as Hcong.
  { intros x' Hx'.
    destruct (Nat.ltb_spec limit (modexp_depth y)) as [Hlow|Hhigh].
    - rewrite !modexp_rec_too_shallow by (lia || exact Hlow). reflexivity.
    - rewrite !modexp_rec_agrees by exact Hhigh.
      rewrite !modexp_spec by lia.
      rewrite <- (Z.mod_pow_l x'), Hx', Z.mod_pow_l. reflexivity. }
  split; [|split].
  - intros Hl. rewrite modexp_rec_agrees, modexp_spec by (lia || exact Hl).
    exists (x ^ y mod N). split; [reflexivity | apply Z.mod_pos_bound; lia].
  - apply Hcong, Z.mod_mod. lia.
  - apply Hcong. replace (x + N) with (x + 1 * N) by lia. apply Z.mod_add. lia.
Qed.

Lemma modexp_rec_range_witness :
  1 <= 3 /\ 1 <= 10 /\ (modexp_depth 3 <= 5)%nat /\
  exists r, modexp_rec 5 12 3 10 = Ok r /\ 0 <= r < 10.
Proof.
  assert (modexp_depth 3 <= 5)%nat as Hd by (vm_compute; lia).
  split; [lia|]. split; [lia|]. split; [exact Hd|].
  apply (modexp_rec_range 5 12 3 10); [lia | lia | exact Hd].
Defined.

(** ** extended_euclid *)

Lemma euclid_depth_eq (a b : Z) :
  euclid_depth a b = if b =? 0 then 1%nat else S (euclid_depth b (a mod b)).
Proof.
  funelim (euclid_depth a b).
  - subst b. reflexivity.
  - destruct (Z.eqb_spec b 0) as [?|_]; [contradiction | reflexivity].
Qed.

Lemma euclid_depth_pos (a b : Z) : (1 <= euclid_depth a b)%nat.
Proof. rewrite euclid_depth_eq. destruct (b =? 0); lia. Qed.

(** Under a limit the recursion returns what [extended_euclid] returns when
    the limit covers its nested calls, and raises otherwise. *)
Lemma extended_euclid_rec_outcome (a b : Z) :
  forall limit,
    extended_euclid_rec limit a b =
    if (euclid_depth a b <=? limit)%nat then Ok (extended_euclid a b)
    else Raise RecursionError.
Proof.
  funelim (extended_euclid a b); intros limit.
  - subst b. rewrite euclid_depth_eq. cbn [Z.eqb].
    destruct limit as [|limit]; reflexivity.
  - rewrite euclid_depth_eq.
    destruct (Z.eqb_spec b 0) as [?|_]; [contradiction|].
    destruct limit as [|limit]; [reflexivity|].
    cbn [extended_euclid_rec Nat.leb].
    destruct (Z.eqb_spec b 0) as [?|_]; [contradiction|].
    match goal with IH : forall _, extended_euclid_rec _ _ _ = _ |- _ =>
      rewrite IH end.
    destruct (euclid_depth b (a mod b) <=? limit)%nat; [|reflexivity].
    cbn [bind_result].
    destruct (extended_euclid b (a mod b)) as [[m' n'] d']. reflexivity.
Qed.

Lemma extended_euclid_rec_agrees (limit : nat) (a b : Z) :
  (euclid_depth a b <= limit)%nat ->
  extended_euclid_rec limit a b = Ok (extended_euclid a b).
Proof.
  intros Hl. rewrite extended_euclid_rec_outcome.
  destruct (Nat.leb_spec (euclid_depth a b) limit); [reflexivity | lia].
Qed.

Lemma extended_euclid_rec_too_shallow (limit : nat) (a b : Z) :
  (limit < euclid_depth a b)%nat ->
  extended_euclid_rec limit a b = Raise RecursionError.
Proof.
  intros Hl. rewrite extended_euclid_rec_outcome.
  destruct (Nat.leb_spec (euclid_depth a b) limit); [lia | reflexivity].
Qed.

(** Two steps of Euclid's algorithm at least halve the second argument. *)
Lemma two_steps_halve (a b : Z) :
  b <> 0 -> a mod b <> 0 -> 2 * Z.abs (b mod (a mod b)) < Z.abs b.
Proof.
  intros Hb Hr. set (r := a mod b) in *.
  pose proof (Z.div_mod b r Hr) as Hdm.
  destruct (Z_lt_le_dec b 0) as [Hneg|Hpos].
  - pose proof (Z.mod_neg_bound a b Hneg) as Hrb. fold r in Hrb.
    pose proof (Z.mod_neg_bound b r ltac:(lia)) as Hsb.
    assert (1 <= b / r) as Hq.
    { destruct (Z_lt_le_dec (b / r) 1) as [Hq0|?]; [|assumption].
      assert (0 <= r * (b / r)) by nia. lia. }
    nia.
  - pose proof (Z.mod_pos_bound a b ltac:(lia)) as Hrb. fold r in Hrb.
    pose proof (Z.mod_pos_bound b r ltac:(lia)) as Hsb.
    assert (1 <= b / r) by (apply Z.div_le_lower_bound; lia).
    nia.
Qed.

(** The number of nested calls is at most [2 * log2 |b| + 3]. *)
Lemma euclid_depth_bound (a b : Z) : (euclid_depth a b <= euclid_bound b)%nat.
Proof.
  remember (Z.abs_nat b) as k eqn:Hk. revert a b Hk.
  induction k as [k IH] using lt_wf_ind. intros a b Hk.
  unfold euclid_bound. pose proof (Z.log2_nonneg (Z.abs b)) as Hlog.
  rewrite euclid_depth_eq.
  destruct (Z.eqb_spec b 0) as [Hb|Hb]; [lia|].
  rewrite euclid_depth_eq.
  destruct (Z.eqb_spec (a mod b) 0) as [Hr|Hr]; [lia|].
  pose proof (two_steps_halve a b Hb Hr) as Hhalf.
  set (r := a mod b) in *. set (s := b mod r) in *.
  destruct (Z.eq_dec s 0) as [Hs|Hs].
  - rewrite euclid_depth_eq, Hs. cbn [Z.eqb]. lia.
  - assert (euclid_depth r s <= euclid_bound s)%nat as Hrec
      by (apply (IH (Z.abs_nat s)); [lia | reflexivity]).
    unfold euclid_bound in Hrec.
    assert (Z.log2 (Z.abs s) + 1 <= Z.log2 (Z.abs b)) as Hl.
    { rewrite Z.add_1_r, <- Z.log2_double by lia. apply Z.log2_le_mono. lia. }
    pose proof (Z.log2_nonneg (Z.abs s)). lia.
Qed.

(** C4, as the code has it: for [a >= 0] and [b >= 0], under a recursion
    limit that covers the nested calls of [extended_euclid a b] (one per step
    of Euclid's algorithm, at most [2 * log2 b + 3] of them), the call
    returns [(m, n, d)] with [m*a + n*b = d] and [d = gcd a b]; the base case
    [b = 0] returns [(1, 0, a)], so [extended_euclid 0 0] returns
    [(1, 0, 0)], and [gcd 0 0 = 0]; under a smaller limit the call raises
    [RecursionError]. *)
Theorem extended_euclid_rec_correct (limit : nat) (a b : Z) :
  0 <= a -> 0 <= b -> (euclid_depth a b <= limit)%nat ->
  (exists m n d, extended_euclid_rec limit a b = Ok (m, n, d) /\
                 m * a + n * b = d /\ d = Z.gcd a b) /\
  (euclid_depth a b <= euclid_bound b)%nat /\
  extended_euclid_rec limit a 0 = Ok (1, 0, a) /\
  extended_euclid_rec limit 0 0 = Ok (1, 0, 0) /\
  Z.gcd 0 0 = 0 /\
  (forall lim, (lim < euclid_depth a b)%nat ->
               extended_euclid_rec lim a b = Raise RecursionError).
Proof.
  intros Ha Hb Hl. pose proof (euclid_depth_pos a b) as Hpos.
  split; [|split; [apply euclid_depth_bound|]].
  - rewrite extended_euclid_rec_agrees by exact Hl.
    pose proof (extended_euclid_bezout a b) as Hbez.
    pose proof (extended_euclid_gcd a b Hb (or_introl Ha)) as Hgcd.
    destruct (extended_euclid a b) as [[m n] d]. cbn [snd] in Hgcd.
    exists m, n, d. auto.
  - destruct limit as [|limit]; [lia|].
    repeat split. intros lim. apply extended_euclid_rec_too_shallow.
Qed.

Lemma extended_euclid_rec_correct_witness :
  0 <= 240 /\ 0 <= 46 /\ (euclid_depth 240 46 <= 6)%nat /\
  exists m n d, extended_euclid_rec 6 240 46 = Ok (m, n, d) /\
                m * 240 + n * 46 = d /\ d = Z.gcd 240 46.
Proof.
  assert (euclid_depth 240 46 <= 6)%nat as Hd by (vm_compute; lia).
  split; [lia|]. split; [lia|]. split; [exact Hd|].
  apply (extended_euclid_rec_correct 6 240 46); [lia | lia | exact Hd].
Defined.

(** C4 as stated, for all [a, b >= 0], fails on deep inputs: on the
    consecutive Fibonacci numbers [F(1100)] and [F(1099)] the recursion
    nests more calls than the default limit leaves, and the call raises
    [RecursionError] instead of returning a triple. *)
Lemma extended_euclid_deep :
  0 <= fib 1100 /\ 0 <= fib 1099 /\
  extended_euclid_rec default_limit (fib 1100) (fib 1099) = Raise RecursionError /\
  ~ (exists m n d,
       extended_euclid_rec default_limit (fib 1100) (fib 1099) = Ok (m, n, d)).
Proof.
  assert (extended_euclid_rec default_limit (fib 1100) (fib 1099)
          = Raise RecursionError) as H by (vm_compute; reflexivity).
  split; [vm_compute; discriminate|]. split; [vm_compute; discriminate|].
  split; [exact H|]. intros (m & n & d & Hok). congruence.
Qed.

(** X4: for all integers [a] and [b], negative ones included, under a
    limit that covers its nested calls (at most [2 * log2 |b| + 3]),
    [extended_euclid a b] returns [(m, n, d)] with [m*a + n*b = d] and
    [|d| = gcd a b]; [d] is the gcd itself for [b > 0], the gcd negated for
    [b < 0], and [a] for [b = 0]; under a smaller limit it raises
    [RecursionError]. *)
Theorem extended_euclid_rec_all_integers (limit : nat) (a b : Z) :
  (euclid_depth a b <= euclid_bound b)%nat /\
  ((euclid_depth a b <= limit)%nat ->
   exists m n d,
     extended_euclid_rec limit a b = Ok (m, n, d) /\
     m * a + n * b = d /\
     Z.abs d = Z.gcd a b /\
     d = (if 0 <? b then Z.gcd a b else if b <? 0 then - Z.gcd a b else a)) /\
  ((limit < euclid_depth a b)%nat ->
   extended_euclid_rec limit a b = Raise RecursionError).
Proof.
  split; [apply euclid_depth_bound|]. split.
  - intros Hl. rewrite extended_euclid_rec_agrees by exact Hl.
    destruct (extended_euclid_all_integers a b) as (m & n & d & He & H).
    exists m, n, d. rewrite He. split; [reflexivity | exact H].
  - apply extended_euclid_rec_too_shallow.
Qed.

(** ** modinv *)

Lemma modinv_lim_agrees (limit : nat) (a N : Z) :
  (euclid_depth a N <= limit)%nat -> modinv_lim limit a N = modinv a N.
Proof.
  intros Hl. unfold modinv_lim, modinv.
  rewrite extended_euclid_rec_agrees by exact Hl. reflexivity.
Qed.

Lemma modinv_lim_too_shallow (limit : nat) (a N : Z) :
  (limit < euclid_depth a N)%nat -> modinv_lim limit a N = Raise RecursionError.
Proof.
  intros Hl. unfold modinv_lim.
  rewrite extended_euclid_rec_too_shallow by exact Hl. reflexivity.
Qed.

(** What [modinv] returns under a limit, it returns on a deep stack. *)
Lemma modinv_lim_returns (limit : nat) (a N x : Z) :
  modinv_lim limit a N = Ok x ->
  (euclid_depth a N <= limit)%nat /\ modinv a N = Ok x.
Proof.
  intros H. destruct (Nat.leb_spec (euclid_depth a N) limit) as [Hl|Hl].
  - split; [exact Hl|]. rewrite <- modinv_lim_agrees with (limit := limit); assumption.
  - rewrite modinv_lim_too_shallow in H by exact Hl. discriminate H.
Qed.

(** C5, as the code has it: for [N >= 1] and [gcd a N = 1], under a
    recursion limit that covers the nested calls of [extended_euclid a N]
    (at most [2 * log2 N + 3]), [modinv a N] returns [x] with [0 <= x < N]
    and [a*x mod N = 1 mod N]; the remainder is [1] itself when [N >= 2]. *)
Theorem modinv_lim_correct (limit : nat) (a N : Z) :
  1 <= N -> Z.gcd a N = 1 -> (euclid_depth a N <= limit)%nat ->
  (exists x, modinv_lim limit a N = Ok x /\ 0 <= x < N /\
             (a * x) mod N = 1 mod N /\
             (2 <= N -> (a * x) mod N = 1)) /\
  (euclid_depth a N <= euclid_bound N)%nat.
Proof.
  intros HN Hg Hl. split; [|apply euclid_depth_bound].
  rewrite modinv_lim_agrees by exact Hl.
  destruct (modinv_coprime a N HN Hg) as (x & Hx & Hr & Hm).
  exists x. repeat split; try assumption; try lia.
  intros H2. rewrite Hm. apply Z.mod_1_l. lia.
Qed.

Lemma modinv_lim_correct_witness :
  1 <= 616 /\ Z.gcd 3 616 = 1 /\ (euclid_depth 3 616 <= 5)%nat /\
  exists x, modinv_lim 5 3 616 = Ok x /\ 0 <= x < 616 /\
            (3 * x) mod 616 = 1 mod 616 /\
            (2 <= 616 -> (3 * x) mod 616 = 1).
Proof.
  assert (euclid_depth 3 616 <= 5)%nat as Hd by (vm_compute; lia).
  split; [lia|]. split; [reflexivity|]. split; [exact Hd|].
  apply (modinv_lim_correct 5 3 616); [lia | reflexivity | exact Hd].
Defined.

(** C5 as stated fails in two ways.  For the modulus [1] the only residue
    is [0], and no product leaves the remainder [1].  And on deep inputs,
    such as the coprime Fibonacci numbers [F(1099)] and [F(1100)], the call
    raises [RecursionError] under the default limit instead of returning. *)
Lemma modinv_lim_fails :
  (modinv_lim default_limit 3 1 = Ok 0 /\
   ~ (1 <= 1 -> Z.gcd 3 1 = 1 ->
      exists x, modinv_lim default_limit 3 1 = Ok x /\ 0 <= x < 1 /\
                (3 * x) mod 1 = 1)) /\
  (1 <= fib 1100 /\ Z.gcd (fib 1099) (fib 1100) = 1 /\
   modinv_lim default_limit (fib 1099) (fib 1100) = Raise RecursionError).
Proof.
  split; split.
  - vm_compute. reflexivity.
  - intros H. destruct (H ltac:(lia) eq_refl) as (x & _ & _ & Hx).
    rewrite Z.mod_1_r in Hx. discriminate Hx.
  - vm_compute. discriminate.
  - split; vm_compute; reflexivity.
Qed.

Lemma modinv_lim_raises_iff (limit : nat) (a N : Z) :
  modinv_lim limit a N = Raise ZeroDivisor <->
  exists m n d, extended_euclid_rec limit a N = Ok (m, n, d) /\ d <> 1.
Proof.
  unfold modinv_lim.
  destruct (extended_euclid_rec limit a N) as [[[m n] d]|err|] eqn:He;
    cbn [bind_result].
  - destruct (Z.eqb_spec d 1) as [->|Hd]; cbn [negb].
    + unfold pymod. split.
      * destruct (N =? 0); discriminate.
      * intros (m' & n' & d' & [= _ _ <-] & Hne). contradiction.
    + split; [intros _; exists m, n, d; auto | reflexivity].
  - split; [intros [= ->]|intros (m & n & d & H & _); discriminate H].
    revert He. clear. revert a N.
    induction limit as [|limit IH]; intros a N; [discriminate|].
    cbn [extended_euclid_rec]. destruct (N =? 0); [discriminate|].
    destruct (extended_euclid_rec limit N (a mod N)) as [[[m n] d]|err|] eqn:He;
      cbn [bind_result]; try discriminate.
    intros [= ->]. exact (IH _ _ He).
  - split; [discriminate | intros (m & n & d & H & _); discriminate H].
Qed.

(** C6, as the code has it: for [N >= 1] and a recursion limit that covers
    the nested calls of [extended_euclid a N], [modinv a N] raises the
    zero-divisor error exactly when [gcd a N <> 1] and returns otherwise;
    for every [N] within the limit a gcd other than [1] raises it; the
    error follows the check of the third component returned by
    [extended_euclid]; beyond the limit the call raises [RecursionError];
    [modinv 2 4] raises the zero-divisor error under every limit of at
    least [3] calls. *)
Theorem modinv_lim_error (limit : nat) (a N : Z) :
  1 <= N -> (euclid_depth a N <= limit)%nat ->
  (modinv_lim limit a N = Raise ZeroDivisor <-> Z.gcd a N <> 1) /\
  (Z.gcd a N = 1 -> exists x, modinv_lim limit a N = Ok x) /\
  (forall N', (euclid_depth a N' <= limit)%nat -> Z.gcd a N' <> 1 ->
              modinv_lim limit a N' = Raise ZeroDivisor) /\
  (forall lim N',
      modinv_lim lim a N' = Raise ZeroDivisor <->
      exists m n d, extended_euclid_rec lim a N' = Ok (m, n, d) /\ d <> 1) /\
  (forall lim N', (lim < euclid_depth a N')%nat ->
                  modinv_lim lim a N' = Raise RecursionError) /\
  (forall lim, (3 <= lim)%nat -> modinv_lim lim 2 4 = Raise ZeroDivisor).
Proof.
  intros HN Hl. rewrite modinv_lim_agrees by exact Hl.
  split; [|split; [|split; [|split; [|split]]]].
  - rewrite modinv_positive_modulus by exact HN.
    destruct (Z.eqb_spec (Z.gcd a N) 1); split; intros H;
      try discriminate H; try reflexivity; congruence.
  - intros Hg. destruct (modinv_coprime a N HN Hg) as (x & Hx & _). eauto.
  - intros N' Hl' Hg. rewrite modinv_lim_agrees by exact Hl'.
    apply modinv_not_coprime, Hg.
  - intros lim N'. apply modinv_lim_raises_iff.
  - intros lim N'. apply modinv_lim_too_shallow.
  - intros lim Hlim. rewrite modinv_lim_agrees; [reflexivity|].
    assert (euclid_depth 2 4 = 3%nat) as -> by (vm_compute; reflexivity).
    exact Hlim.
Qed.

Lemma modinv_lim_error_witness :
  1 <= 9 /\ (euclid_depth 6 9 <= 5)%nat /\
  (modinv_lim 5 6 9 = Raise ZeroDivisor <-> Z.gcd 6 9 <> 1).
Proof.
  assert (euclid_depth 6 9 <= 5)%nat as Hd by (vm_compute; lia).
  split; [lia|]. split; [exact Hd|].
  apply (modinv_lim_error 5 6 9); [lia | exact Hd].
Defined.

(** C6 as stated fails in three ways, each with [gcd = 1]: a zero modulus
    makes the final reduction raise [ZeroDivisionError]; a negative modulus
    gives a negated gcd, which the check rejects; and on deep inputs the
    call raises [RecursionError], a third outcome, instead of returning. *)
Lemma modinv_lim_error_fails :
  (modinv_lim default_limit 1 0 = Raise ZeroDivisionError /\
   ~ (Z.gcd 1 0 = 1 -> exists x, modinv_lim default_limit 1 0 = Ok x)) /\
  (modinv_lim default_limit 1 (-2) = Raise ZeroDivisor /\
   ~ (modinv_lim default_limit 1 (-2) = Raise ZeroDivisor -> Z.gcd 1 (-2) <> 1)) /\
  (Z.gcd (fib 1099) (fib 1100) = 1 /\
   modinv_lim default_limit (fib 1099) (fib 1100) = Raise RecursionError /\
   ~ (exists x, modinv_lim default_limit (fib 1099) (fib 1100) = Ok x)).
Proof.
  assert (modinv_lim default_limit (fib 1099) (fib 1100) = Raise RecursionError)
    as Hdeep by (vm_compute; reflexivity).
  split; [|split].
  - split; [vm_compute; reflexivity|].
    intros H. destruct (H eq_refl) as [x Hx]. vm_compute in Hx. discriminate Hx.
  - split; [vm_compute; reflexivity|].
    intros H. apply H; vm_compute; reflexivity.
  - split; [vm_compute; reflexivity|]. split; [exact Hdeep|].
    intros [x Hx]. congruence.
Qed.

(** X6: inverting twice gives back the residue of [a], when the limit also
    covers the second call: if [modinv a N] returns [x] and the limit covers
    the nested calls of [extended_euclid x N], then [modinv x N] returns
    [a mod N]; the second call can need more calls than the first, and
    raises [RecursionError] when the limit does not cover it. *)
Theorem modinv_lim_involutive (limit : nat) (a N x : Z) :
  modinv_lim limit a N = Ok x ->
  ((euclid_depth x N <= limit)%nat -> modinv_lim limit x N = Ok (a mod N)) /\
  ((limit < euclid_depth x N)%nat -> modinv_lim limit x N = Raise RecursionError) /\
  (euclid_depth x N <= euclid_bound N)%nat.
Proof.
  intros H. apply modinv_lim_returns in H as [_ H].
  split; [|split].
  - intros Hl. rewrite modinv_lim_agrees by exact Hl.
    apply modinv_involutive, H.
  - apply modinv_lim_too_shallow.
  - apply euclid_depth_bound.
Qed.

Lemma modinv_lim_involutive_witness :
  modinv_lim 4 3 7 = Ok 5 /\
  modinv_lim 4 5 7 = Raise RecursionError /\
  modinv_lim 5 3 7 = Ok 5 /\ modinv_lim 5 5 7 = Ok (3 mod 7).
Proof.
  assert (H4 : modinv_lim 4 3 7 = Ok 5) by (vm_compute; reflexivity).
  assert (H5 : modinv_lim 5 3 7 = Ok 5) by (vm_compute; reflexivity).
  destruct (modinv_lim_involutive 4 3 7 5 H4) as (_ & Hlow & _).
  destruct (modinv_lim_involutive 5 3 7 5 H5) as (Hhigh & _ & _).
  split; [exact H4|]. split; [apply Hlow; vm_compute; lia|].
  split; [exact H5 | apply Hhigh; vm_compute; lia].
Defined.

(** X8: with a modulus [N <= 0], [modinv] never returns: within the limit
    it raises [ZeroDivisionError] for [modinv 1 0], where the check passes
    and the final [m % N] divides by zero, and the zero-divisor error in
    every other case; beyond the limit it raises [RecursionError]. *)
Theorem modinv_lim_nonpositive (limit : nat) (a N : Z) :
  N <= 0 ->
  ((euclid_depth a N <= limit)%nat ->
   modinv_lim limit a N =
   if (N =? 0) && (a =? 1) then Raise ZeroDivisionError else Raise ZeroDivisor) /\
  ((limit < euclid_depth a N)%nat -> modinv_lim limit a N = Raise RecursionError) /\
  (forall x, modinv_lim limit a N <> Ok x).
Proof.
  intros HN. split; [|split].
  - intros Hl. rewrite modinv_lim_agrees by exact Hl.
    apply modinv_nonpositive, HN.
  - apply modinv_lim_too_shallow.
  - intros x Hx. apply modinv_lim_returns in Hx as [_ Hx].
    apply modinv_returns in Hx. lia.
Qed.

Lemma modinv_lim_nonpositive_witness :
  -5 <= 0 /\ (euclid_depth 3 (-5) <= 6)%nat /\ modinv_lim 6 3 (-5) = Raise ZeroDivisor.
Proof.
  assert (euclid_depth 3 (-5) <= 6)%nat as Hd by (vm_compute; lia).
  split; [lia|]. split; [exact Hd|].
  apply (modinv_lim_nonpositive 6 3 (-5)); [lia | exact Hd].
Defined.

(** ** fermat_test *)

Lemma fermat_test_lim_on_list (limit : nat) (N : Z) (ws tape : list Z) :
  fermat_test_lim limit N (Explicit ws) tape =
  bind_result (fermat_loop_lim limit N ws) (fun b => Ok (b, tape)).
Proof. reflexivity. Qed.

Lemma fermat_loop_lim_agrees (limit : nat) (N : Z) (ws : list Z) :
  (modexp_depth (N - 1) <= limit)%nat ->
  fermat_loop_lim limit N ws = fermat_loop N ws.
Proof.
  intros Hl. induction ws as [|a ws IH]; [reflexivity|].
  cbn [fermat_loop_lim fermat_loop].
  rewrite modexp_rec_agrees, IH by exact Hl. reflexivity.
Qed.

Lemma fermat_loop_evaluated_lim_agrees (limit : nat) (N : Z) (ws : list Z) :
  (modexp_depth (N - 1) <= limit)%nat ->
  fermat_loop_evaluated_lim limit N ws = fermat_loop_evaluated N ws.
Proof.
  intros Hl. induction ws as [|a ws IH]; [reflexivity|].
  cbn [fermat_loop_evaluated_lim fermat_loop_evaluated].
  rewrite modexp_rec_agrees, IH by exact Hl. reflexivity.
Qed.

Lemma fermat_test_lim_agrees (limit : nat) (N : Z) (alphas : alphas_arg)
    (tape : list Z) :
  (modexp_depth (N - 1) <= limit)%nat ->
  fermat_test_lim limit N alphas tape = fermat_test N alphas tape.
Proof.
  intros Hl. unfold fermat_test_lim, fermat_test, bind.
  destruct (match alphas with
            | Count k => draw_witnesses (Z.to_nat k) N
            | Explicit l => ret l
            end tape) as [[l tape']| |]; try reflexivity.
  unfold lift. rewrite fermat_loop_lim_agrees by exact Hl. reflexivity.
Qed.

(** With a first witness to test and a limit that does not cover the
    exponent [N - 1 > 0], the test raises. *)
Lemma fermat_loop_lim_too_shallow (limit : nat) (N a : Z) (ws : list Z) :
  2 <= N -> (limit < modexp_depth (N - 1))%nat ->
  fermat_loop_lim limit N (a :: ws) = Raise RecursionError.
Proof.
  intros HN Hl. cbn [fermat_loop_lim].
  rewrite modexp_rec_too_shallow by (lia || exact Hl). reflexivity.
Qed.

(** C7, as the code has it: for [N >= 2], a recursion limit that covers
    the depth the exponent [N - 1] needs, and an explicit ordered collection
    [ws], [fermat_test] returns a boolean; it returns [false] exactly when
    some witness [a] of [ws] has [a^(N-1) mod N <> 1], it stops at the first
    such witness without calling [modexp] on the later ones, and it returns
    [true] when every witness has [a^(N-1) mod N = 1]; under a smaller limit
    and with a witness to test it raises [RecursionError]. *)
Theorem fermat_test_lim_explicit (limit : nat) (N : Z) (ws tape : list Z) :
  2 <= N -> (modexp_depth (N - 1) <= limit)%nat ->
  (exists b, fermat_test_lim limit N (Explicit ws) tape = Ok (b, tape)) /\
  (fermat_test_lim limit N (Explicit ws) tape = Ok (false, tape) <->
   exists a, In a ws /\ a ^ (N - 1) mod N <> 1) /\
  (forall l1 a l2,
      ws = l1 ++ a :: l2 ->
      (forall b, In b l1 -> b ^ (N - 1) mod N = 1) ->
      a ^ (N - 1) mod N <> 1 ->
      fermat_test_lim limit N (Explicit ws) tape = Ok (false, tape) /\
      fermat_loop_evaluated_lim limit N ws = l1 ++ [a]) /\
  ((forall a, In a ws -> a ^ (N - 1) mod N = 1) ->
   fermat_test_lim limit N (Explicit ws) tape = Ok (true, tape)) /\
  (forall lim a rest, (lim < modexp_depth (N - 1))%nat ->
     fermat_test_lim lim N (Explicit (a :: rest)) tape = Raise RecursionError).
Proof.
  intros HN Hl.
  rewrite fermat_test_lim_agrees, fermat_loop_evaluated_lim_agrees by exact Hl.
  destruct (fermat_test_explicit N ws tape HN) as (H1 & H2 & H3 & H4).
  repeat (split; [assumption|]).
  intros lim a rest Hlim. rewrite fermat_test_lim_on_list.
  rewrite fermat_loop_lim_too_shallow by assumption. reflexivity.
Qed.

Lemma fermat_test_lim_explicit_witness :
  2 <= 15 /\ (modexp_depth (15 - 1) <= 5)%nat /\
  (fermat_test_lim 5 15 (Explicit [4; 2; 7]) [] = Ok (false, []) <->
   exists a, In a [4; 2; 7] /\ a ^ (15 - 1) mod 15 <> 1) /\
  fermat_loop_evaluated_lim 5 15 [4; 2; 7] = [4; 2].
Proof.
  assert (modexp_depth (15 - 1) <= 5)%nat as Hd by (vm_compute; lia).
  split; [lia|]. split; [exact Hd|].
  destruct (fermat_test_lim_explicit 5 15 [4; 2; 7] [] ltac:(lia) Hd)
    as (_ & Hiff & _).
  split; [exact Hiff | reflexivity].
Defined.

(** C7 as stated, for every [N], fails below [2] and on large [N]: for
    [N <= 0] the exponent [N - 1] is negative and [modexp] never returns;
    for [N = 1] the witness passes although [2^0 mod 1 = 0]; and for
    [N = 2^1100] the exponent has more binary digits than the default limit
    leaves calls, and the test raises [RecursionError]. *)
Lemma fermat_test_lim_fails :
  (fermat_test_lim default_limit 0 (Explicit [2]) [] = Raise RecursionError /\
   ~ (exists b, fermat_test_lim default_limit 0 (Explicit [2]) [] = Ok (b, []))) /\
  (fermat_test_lim default_limit 1 (Explicit [2]) [] = Ok (true, []) /\
   ~ ((exists a, In a [2] /\ a ^ (1 - 1) mod 1 <> 1) ->
      fermat_test_lim default_limit 1 (Explicit [2]) [] = Ok (false, []))) /\
  (2 <= 2 ^ 1100 /\
   fermat_test_lim default_limit (2 ^ 1100) (Explicit [2]) [] = Raise RecursionError /\
   ~ (exists b, fermat_test_lim default_limit (2 ^ 1100) (Explicit [2]) []
                = Ok (b, []))).
Proof.
  assert (fermat_test_lim default_limit (2 ^ 1100) (Explicit [2]) []
          = Raise RecursionError) as Hdeep by (vm_compute; reflexivity).
  split; [|split].
  - split; [vm_compute; reflexivity|].
    intros [b Hb]. vm_compute in Hb. discriminate Hb.
  - split; [vm_compute; reflexivity|].
    intros H.
    enough (fermat_test_lim default_limit 1 (Explicit [2]) [] = Ok (false, []))
      as Hf by (vm_compute in Hf; discriminate Hf).
    apply H. exists 2. split; [left; reflexivity | cbn; discriminate].
  - split; [vm_compute; discriminate|]. split; [exact Hdeep|].
    intros [b Hb]. congruence.
Qed.

(** X9: for [N >= 2] and a limit that covers the exponent [N - 1], a
    witness that shares a factor with [N] always makes [fermat_test] return
    [false]; so when the test returns [true], every witness is coprime to
    [N]. *)
Theorem fermat_test_lim_common_factor (limit : nat) (N : Z) (ws tape : list Z) :
  2 <= N -> (modexp_depth (N - 1) <= limit)%nat ->
  ((exists a, In a ws /\ Z.gcd a N <> 1) ->
   fermat_test_lim limit N (Explicit ws) tape = Ok (false, tape)) /\
  (fermat_test_lim limit N (Explicit ws) tape = Ok (true, tape) ->
   forall a, In a ws -> Z.gcd a N = 1).
Proof.
  intros HN Hl. rewrite fermat_test_lim_agrees by exact Hl.
  exact (fermat_test_common_factor N ws tape HN).
Qed.

Lemma fermat_test_lim_common_factor_witness :
  2 <= 91 /\ (modexp_depth (91 - 1) <= 8)%nat /\
  (exists a, In a [3; 7] /\ Z.gcd a 91 <> 1) /\
  fermat_test_lim 8 91 (Explicit [3; 7]) [] = Ok (false, []).
Proof.
  assert (modexp_depth (91 - 1) <= 8)%nat as Hd by (vm_compute; lia).
  assert (exists a, In a [3; 7] /\ Z.gcd a 91 <> 1) as H.
  { exists 7. split; [right; left; reflexivity | vm_compute; discriminate]. }
  split; [lia|]. split; [exact Hd|]. split; [exact H|].
  apply (fermat_test_lim_common_factor 8 91 [3; 7] []); [lia | exact Hd | exact H].
Defined.

(** X10: for a prime [N] and a limit that covers the exponent [N - 1],
    [fermat_test] on an explicit collection returns [false] exactly when
    some witness is a multiple of [N]; witnesses that are not multiples of
    [N] never reject a prime. *)
Theorem fermat_test_lim_prime (limit : nat) (N : Z) (ws tape : list Z) :
  Z.prime N -> (modexp_depth (N - 1) <= limit)%nat ->
  fermat_test_lim limit N (Explicit ws) tape
  = Ok (forallb (fun a => negb (a mod N =? 0)) ws, tape) /\
  ((forall a, In a ws -> a mod N <> 0) ->
   fermat_test_lim limit N (Explicit ws) tape = Ok (true, tape)).
Proof.
  intros HN Hl. rewrite fermat_test_lim_agrees by exact Hl.
  exact (fermat_test_prime N ws tape HN).
Qed.

Lemma fermat_test_lim_prime_witness :
  Z.prime 23 /\ (modexp_depth (23 - 1) <= 6)%nat /\
  fermat_test_lim 6 23 (Explicit [2; 46; 5]) []
  = Ok (forallb (fun a => negb (a mod 23 =? 0)) [2; 46; 5], []).
Proof.
  assert (Z.prime 23) as H by (apply trial_division_prime; reflexivity).
  assert (modexp_depth (23 - 1) <= 6)%nat as Hd by (vm_compute; lia).
  split; [exact H|]. split; [exact Hd|].
  apply (fermat_test_lim_prime 6 23 [2; 46; 5] [] H Hd).
Defined.

(** X11: with a count [k], [N >= 2] and a limit that covers the exponent
    [N - 1], all [k] witnesses are drawn from [1 .. N-1] before any is
    tested: the call consumes exactly [k] draws, whether or not an early
    witness fails, and returns [false] exactly when some drawn witness [a]
    has [a^(N-1) mod N <> 1]. *)
Theorem fermat_test_lim_count (limit : nat) (N k : Z) (tape : list Z) :
  2 <= N -> (modexp_depth (N - 1) <= limit)%nat ->
  (Z.to_nat k <= length tape)%nat ->
  exists ws,
    draw_witnesses (Z.to_nat k) N tape = Ok (ws, skipn (Z.to_nat k) tape) /\
    length ws = Z.to_nat k /\
    (forall a, In a ws -> 1 <= a <= N - 1) /\
    fermat_test_lim limit N (Count k) tape
    = Ok (forallb (passes N) ws, skipn (Z.to_nat k) tape) /\
    (fermat_test_lim limit N (Count k) tape = Ok (false, skipn (Z.to_nat k) tape) <->
     exists a, In a ws /\ a ^ (N - 1) mod N <> 1).
Proof.
  intros HN Hl Hk. rewrite fermat_test_lim_agrees by exact Hl.
  exact (fermat_test_count N k tape HN Hk).
Qed.

Lemma fermat_test_lim_count_witness :
  2 <= 15 /\ (modexp_depth (15 - 1) <= 5)%nat /\
  (Z.to_nat 3 <= length [3; 0; 5; 9])%nat /\
  exists ws,
    draw_witnesses (Z.to_nat 3) 15 [3; 0; 5; 9] = Ok (ws, skipn (Z.to_nat 3) [3; 0; 5; 9]) /\
    fermat_test_lim 5 15 (Count 3) [3; 0; 5; 9]
    = Ok (forallb (passes 15) ws, skipn (Z.to_nat 3) [3; 0; 5; 9]).
Proof.
  assert (modexp_depth (15 - 1) <= 5)%nat as Hd by (vm_compute; lia).
  split; [lia|]. split; [exact Hd|]. split; [cbn; lia|].
  destruct (fermat_test_lim_count 5 15 3 [3; 0; 5; 9] ltac:(lia) Hd ltac:(cbn; lia))
    as (ws & Hdraw & _ & _ & Ht & _).
  exists ws. split; assumption.
Defined.

(** X12: a prime [N] always passes the randomized test when the limit
    covers the exponent [N - 1]: for every count [k] and every tape holding
    at least [k] draws, [fermat_test N k] returns [true] after consuming
    [k] draws. *)
Theorem fermat_test_lim_count_prime (limit : nat) (N k : Z) (tape : list Z) :
  Z.prime N -> (modexp_depth (N - 1) <= limit)%nat ->
  (Z.to_nat k <= length tape)%nat ->
  fermat_test_lim limit N (Count k) tape = Ok (true, skipn (Z.to_nat k) tape).
Proof.
  intros HN Hl Hk. rewrite fermat_test_lim_agrees by exact Hl.
  exact (fermat_test_count_prime N k tape HN Hk).
Qed.

Lemma fermat_test_lim_count_prime_witness :
  Z.prime 29 /\ (modexp_depth (29 - 1) <= 6)%nat /\
  (Z.to_nat 2 <= length [100; 7; 4])%nat /\
  fermat_test_lim 6 29 (Count 2) [100; 7; 4] = Ok (true, skipn (Z.to_nat 2) [100; 7; 4]).
Proof.
  assert (Z.prime 29) as H by (apply trial_division_prime; reflexivity).
  assert (modexp_depth (29 - 1) <= 6)%nat as Hd by (vm_compute; lia).
  split; [exact H|]. split; [exact Hd|]. split; [cbn; lia|].
  apply (fermat_test_lim_count_prime 6 29 2 [100; 7; 4] H Hd). cbn; lia.
Defined.

(** ** randprime *)

Lemma randprime_lim_step (limit fuel : nat) (lower upper : Z) (tape : list Z) :
  randprime_lim limit (S fuel) lower upper tape =
  match randint lower upper tape with
  | Ok (n, tape') =>
      match fermat_loop_lim limit n trial_witnesses with
      | Ok true => Ok (n, tape')
      | Ok false => randprime_lim limit fuel lower upper tape'
      | Raise e => Raise e
      | Unfinished => Unfinished
      end
  | Raise e => Raise e
  | Unfinished => Unfinished
  end.
Proof.
  cbn [randprime_lim]. unfold bind at 1.
  destruct (randint lower upper tape) as [[n tape']| |]; try reflexivity.
  unfold bind. rewrite fermat_test_lim_on_list.
  destruct (fermat_loop_lim limit n trial_witnesses) as [[|]| |]; reflexivity.
Qed.

Lemma fermat_test_lim_trial (limit : nat) (n : Z) (b : bool) :
  fermat_test_lim limit n (Explicit trial_witnesses) [] = Ok (b, []) <->
  fermat_loop_lim limit n trial_witnesses = Ok b.
Proof.
  rewrite fermat_test_lim_on_list.
  destruct (fermat_loop_lim limit n trial_witnesses) as [b'| |]; cbn [bind_result];
    split; intros H; try discriminate H; congruence.
Qed.

(** When the limit covers every candidate of the interval, it does not
    show. *)
Lemma randprime_lim_agrees (limit fuel : nat) (lower upper : Z) (tape : list Z) :
  (modexp_depth (upper - 1) <= limit)%nat ->
  randprime_lim limit fuel lower upper tape = randprime fuel lower upper tape.
Proof.
  intros Hl. revert tape. induction fuel as [|fuel IH]; intros tape; [reflexivity|].
  rewrite randprime_lim_step, randprime_step.
  destruct (randint lower upper tape) as [[n tape']| |] eqn:Hdraw; try reflexivity.
  apply randint_range in Hdraw as [Hn _].
  rewrite fermat_loop_lim_agrees, IH; [reflexivity|].
  pose proof (modexp_depth_mono (n - 1) (upper - 1) ltac:(lia)). lia.
Qed.

(** X14: rejection sampling returns the first candidate that passes: when
    the tape draws candidates of [lower .. upper] that all fail the test on
    the trial witnesses under the limit in force, followed by a candidate
    [v] that passes under it, [randprime] returns [v], having used one draw
    for each candidate and none of the rest. *)
Theorem randprime_lim_first_accepted (limit fuel : nat) (lower upper : Z)
    (rejected : list Z) (v : Z) (rest : list Z) :
  (length rejected <= fuel)%nat ->
  (forall c, In c rejected ->
             lower <= c <= upper /\
             fermat_test_lim limit c (Explicit trial_witnesses) [] = Ok (false, [])) ->
  lower <= v <= upper ->
  fermat_test_lim limit v (Explicit trial_witnesses) [] = Ok (true, []) ->
  randprime_lim limit (S fuel) lower upper
                (map (fun c => c - lower) (rejected ++ [v]) ++ rest)
  = Ok (v, rest).
Proof.
  intros Hfuel Hrej Hv Hpass. apply fermat_test_lim_trial in Hpass.
  revert fuel Hfuel. induction rejected as [|c rejected IH]; intros fuel Hfuel.
  - cbn [app map]. rewrite randprime_lim_step, randint_any, Hpass by exact Hv.
    reflexivity.
  - destruct fuel as [|fuel]; [cbn in Hfuel; lia|].
    cbn [app map]. destruct (Hrej c (or_introl eq_refl)) as [Hc Hfail].
    apply fermat_test_lim_trial in Hfail.
    rewrite randprime_lim_step, randint_any, Hfail by exact Hc.
    apply IH; [|cbn in Hfuel; lia].
    intros c' Hc'. apply Hrej. right. exact Hc'.
Qed.

Lemma randprime_lim_first_accepted_witness :
  randprime_lim 6 3 16 31 (map (fun c => c - 16) ([16; 19] ++ [23]) ++ [5])
  = Ok (23, [5]).
Proof.
  apply (randprime_lim_first_accepted 6 2 16 31 [16; 19] 23 [5]).
  - cbn. lia.
  - intros c [<-|[<-|[]]]; (split; [lia | reflexivity]).
  - lia.
  - reflexivity.
Defined.

(** ** keygen *)

Lemma exponent_search_lim_agrees (limit fuel : nat) (e phi : Z) :
  (euclid_bound phi <= limit)%nat ->
  exponent_search_lim limit fuel e phi = exponent_search fuel e phi.
Proof.
  intros Hl. revert e. induction fuel as [|fuel IH]; intros e; [reflexivity|].
  cbn [exponent_search_lim exponent_search].
  rewrite modinv_lim_agrees, IH; [reflexivity|].
  pose proof (euclid_depth_bound e phi). lia.
Qed.

Lemma exponent_search_lim_returns (limit fuel : nat) (e0 phi e d : Z) :
  exponent_search_lim limit fuel e0 phi = Ok (e, d) -> e0 <= e /\ modinv e phi = Ok d.
Proof.
  revert e0. induction fuel as [|fuel IH]; intros e0; [discriminate|].
  cbn [exponent_search_lim].
  destruct (modinv_lim limit e0 phi) as [d0| |] eqn:H0.
  - intros [= <- <-]. split; [lia|]. apply (modinv_lim_returns limit), H0.
  - intros H. destruct (IH _ H). split; [lia | assumption].
  - discriminate.
Qed.

(** X21: [keygen] returns as soon as the draws and the limit allow it: for
    [nbits >= 1], when the first two draws are candidates [p >= 2] and
    [q >= 2] of [2^(nbits-1) .. 2^nbits - 1] that pass the test on the trial
    witnesses under the depth left to [modexp], the depth left to
    [extended_euclid] covers the [2 * log2 phi + 3] calls that it can nest on
    [phi = (p-1)(q-1)], and the budget covers [phi] iterations, [keygen]
    returns a pair of keys with the modulus [p*q], using those two draws
    only. *)
Theorem keygen_lim_completes (lim_modexp lim_euclid fuel : nat) (nbits p q : Z)
    (rest : list Z) :
  1 <= nbits ->
  2 ^ (nbits - 1) <= p <= 2 ^ nbits - 1 ->
  2 ^ (nbits - 1) <= q <= 2 ^ nbits - 1 ->
  2 <= p -> 2 <= q ->
  fermat_test_lim lim_modexp p (Explicit trial_witnesses) [] = Ok (true, []) ->
  fermat_test_lim lim_modexp q (Explicit trial_witnesses) [] = Ok (true, []) ->
  (euclid_bound ((p - 1) * (q - 1)) <= lim_euclid)%nat ->
  (Z.to_nat ((p - 1) * (q - 1)) <= fuel)%nat ->
  exists e d,
    keygen_lim lim_modexp lim_euclid fuel nbits
               ((p - 2 ^ (nbits - 1)) :: (q - 2 ^ (nbits - 1)) :: rest)
    = Ok (((p * q, e), (p * q, d)), rest).
Proof.
  intros Hn Hp Hq Hp2 Hq2 Hpt Hqt Hlim Hfuel.
  apply fermat_test_lim_trial in Hpt, Hqt.
  assert (1 <= (p - 1) * (q - 1)) as Hphi by nia.
  destruct (exponent_search_positive fuel _ Hphi Hfuel) as (e & d & Hs & _).
  exists e, d. unfold keygen_lim.
  destruct (Z.ltb_spec nbits 1) as [?|_]; [lia|]. cbv zeta.
  destruct fuel as [|fuel]; [lia|].
  unfold bind at 1. rewrite randprime_lim_step, randint_any, Hpt by exact Hp.
  unfold bind at 1. rewrite randprime_lim_step, randint_any, Hqt by exact Hq.
  unfold bind, lift. rewrite exponent_search_lim_agrees, Hs by exact Hlim.
  reflexivity.
Qed.

Lemma keygen_lim_completes_witness :
  exists e d,
    keygen_lim 6 21 616 5 ((23 - 2 ^ (5 - 1)) :: (29 - 2 ^ (5 - 1)) :: [4])
    = Ok (((23 * 29, e), (23 * 29, d)), [4]).
Proof.
  apply (keygen_lim_completes 6 21 616 5 23 29 [4]);
    try (cbn; lia); try reflexivity; vm_compute; lia.
Defined.

Lemma keygen_lim_inversion (lim_modexp lim_euclid fuel : nat) (nbits : Z)
    (tape : list Z) (N e N' d : Z) (tape' : list Z) :
  keygen_lim lim_modexp lim_euclid fuel nbits tape = Ok (((N, e), (N', d)), tape') ->
  exists p q tape1,
    randprime_lim lim_modexp fuel (2 ^ (nbits - 1)) (2 ^ nbits - 1) tape
    = Ok (p, tape1) /\
    randprime_lim lim_modexp fuel (2 ^ (nbits - 1)) (2 ^ nbits - 1) tape1
    = Ok (q, tape') /\
    N = p * q /\ N' = p * q /\
    exponent_search_lim lim_euclid fuel 3 ((p - 1) * (q - 1)) = Ok (e, d).
Proof.
  unfold keygen_lim. destruct (Z.ltb_spec nbits 1) as [?|Hn]; [discriminate|].
  cbv zeta. unfold bind at 1.
  destruct (randprime_lim lim_modexp fuel _ _ tape) as [[p tape1]| |] eqn:Hp;
    try discriminate.
  unfold bind at 1.
  destruct (randprime_lim lim_modexp fuel _ _ tape1) as [[q tape2]| |] eqn:Hq;
    try discriminate.
  unfold bind, lift, ret.
  destruct (exponent_search_lim lim_euclid fuel 3 ((p - 1) * (q - 1)))
    as [[e0 d0]| |] eqn:Hs; cbn [bind_result fst snd]; try discriminate.
  intros [= <- <- <- <- <-].
  exists p, q, tape1. repeat split; assumption.
Qed.

(** X22: a generated key pair works end to end when the limit covers its
    exponents: when [keygen] returns [(pub, priv)] under any depths, the two
    values [p] and [q] it drew are distinct primes, and the limit in force
    at [encode] and [decode] covers the depth that the two exponents need,
    every message [0 <= m < N] is recovered by [decode priv] from
    [encode pub m]. *)
Theorem keygen_lim_roundtrip (lim_modexp lim_euclid fuel : nat) (nbits : Z)
    (tape : list Z) (pub priv : key) (tape' : list Z) (p q : Z) (tape1 : list Z)
    (limit : nat) (m : Z) :
  keygen_lim lim_modexp lim_euclid fuel nbits tape = Ok ((pub, priv), tape') ->
  randprime_lim lim_modexp fuel (2 ^ (nbits - 1)) (2 ^ nbits - 1) tape
  = Ok (p, tape1) ->
  randprime_lim lim_modexp fuel (2 ^ (nbits - 1)) (2 ^ nbits - 1) tape1
  = Ok (q, tape') ->
  Z.prime p -> Z.prime q -> p <> q ->
  (modexp_depth (snd pub) <= limit)%nat ->
  (modexp_depth (snd priv) <= limit)%nat ->
  0 <= m < fst pub ->
  exists c, encode limit pub m = Ok c /\ decode limit priv c = Ok m.
Proof.
  destruct pub as [N e], priv as [N' d]. cbn [fst snd].
  intros H Hp Hq Hpp Hqp Hne Hle Hld Hm.
  apply keygen_lim_inversion in H
    as (p0 & q0 & t0 & Hp0 & Hq0 & -> & -> & Hs).
  rewrite Hp in Hp0. injection Hp0 as <- <-.
  rewrite Hq in Hq0. injection Hq0 as <-.
  apply exponent_search_lim_returns in Hs as (He & Hd).
  destruct (modinv_returns e _ d Hd) as (Hphi & _ & Hr & Hm').
  pose proof (Z.prime_ge_2 p Hpp). pose proof (Z.prime_ge_2 q Hqp).
  assert (2 <= (p - 1) * (q - 1)) as Hphi2 by nia.
  rewrite Z.mod_1_l in Hm' by lia.
  apply encode_decode; try assumption; lia.
Qed.

Lemma keygen_lim_roundtrip_witness :
  exists c, encode 12 (667, 3) 100 = Ok c /\ decode 12 (667, 411) c = Ok 100.
Proof.
  apply (keygen_lim_roundtrip 6 8 5 5 [7; 13] (667, 3) (667, 411) [] 23 29 [13] 12 100);
    try (vm_compute; reflexivity);
    try (apply trial_division_prime; reflexivity);
    try (cbn; lia); vm_compute; lia.
Defined.

(** ** encode and decode: other orders, other messages *)

(** X23: the two keys also work in the other order: for distinct primes
    [p] and [q], [N = p*q], exponents [e, d >= 0] with
    [e*d mod (p-1)(q-1) = 1] and a limit that covers the depth both
    exponents need, encoding with [(N, e)] what [decode (N, d)] returns for
    [0 <= c < N] gives back [c]. *)
Theorem decode_encode_roundtrip (limit : nat) (p q e d c : Z) :
  Z.prime p -> Z.prime q -> p <> q ->
  0 <= e -> 0 <= d -> (e * d) mod ((p - 1) * (q - 1)) = 1 ->
  (modexp_depth e <= limit)%nat -> (modexp_depth d <= limit)%nat ->
  0 <= c < p * q ->
  exists s, decode limit (p * q, d) c = Ok s /\ encode limit (p * q, e) s = Ok c.
Proof.
  intros Hp Hq Hne He Hd Hinv Hle Hld Hc.
  rewrite Z.mul_comm in Hinv.
  destruct (encode_decode p q d e Hp Hq Hne Hd He Hinv limit c Hld Hle Hc)
    as (s & Hs & Hback).
  exists s. split; [exact Hs | exact Hback].
Qed.

Lemma decode_encode_roundtrip_witness :
  exists s, decode 6 (3 * 11, 7) 17 = Ok s /\ encode 6 (3 * 11, 3) s = Ok 17.
Proof.
  apply (decode_encode_roundtrip 6 3 11 3 7 17);
    try (apply trial_division_prime; reflexivity); try lia;
    try reflexivity; vm_compute; lia.
Defined.

(** X24: nothing checks that the message lies in [0 .. N-1]: for distinct
    primes, matching exponents and a limit that covers them as above, the
    round trip of any integer [m] returns [m mod N], so it returns [m]
    exactly when [0 <= m < N]. *)
Theorem roundtrip_any_message (limit : nat) (p q e d m : Z) :
  Z.prime p -> Z.prime q -> p <> q ->
  0 <= e -> 0 <= d -> (e * d) mod ((p - 1) * (q - 1)) = 1 ->
  (modexp_depth e <= limit)%nat -> (modexp_depth d <= limit)%nat ->
  (exists c, encode limit (p * q, e) m = Ok c /\ 0 <= c < p * q /\
             decode limit (p * q, d) c = Ok (m mod (p * q))) /\
  (m mod (p * q) = m <-> 0 <= m < p * q).
Proof.
  intros Hp Hq Hne He Hd Hinv Hle Hld.
  pose proof (Z.prime_ge_2 p Hp). pose proof (Z.prime_ge_2 q Hq).
  assert (2 <= p * q) as HN by nia.
  split.
  - exists (m ^ e mod (p * q)). unfold encode, decode.
    rewrite !modexp_rec_agrees by assumption.
    rewrite !modexp_spec by lia. split; [reflexivity|].
    split; [apply Z.mod_pos_bound; lia|].
    rewrite Z.mod_pow_l, <- Z.pow_mul_r by assumption.
    rewrite (power_cong p q e d) by assumption. reflexivity.
  - split.
    + intros <-. apply Z.mod_pos_bound. lia.
    + intros Hm. apply Z.mod_small, Hm.
Qed.

Lemma roundtrip_any_message_witness :
  exists c, encode 6 (3 * 11, 3) 50 = Ok c /\ 0 <= c < 3 * 11 /\
            decode 6 (3 * 11, 7) c = Ok (50 mod (3 * 11)).
Proof.
  apply (roundtrip_any_message 6 3 11 3 7 50);
    try (apply trial_division_prime; reflexivity); try lia;
    try reflexivity; vm_compute; lia.
Defined.

(** X25: [encode] is multiplicative: for a modulus [N >= 2], an exponent
    [e >= 0] and a limit that covers the depth [e] needs, the encoding of a
    product is the product of the encodings reduced modulo [N], and the
    encoding sees the message only modulo [N]. *)
Theorem encode_multiplicative (limit : nat) (N e m1 m2 : Z) :
  2 <= N -> 0 <= e -> (modexp_depth e <= limit)%nat ->
  exists c1 c2,
    encode limit (N, e) m1 = Ok c1 /\ encode limit (N, e) m2 = Ok c2 /\
    encode limit (N, e) (m1 * m2) = Ok ((c1 * c2) mod N) /\
    encode limit (N, e) (m1 mod N) = Ok c1.
Proof.
  intros HN He Hl. unfold encode.
  rewrite !modexp_rec_agrees by exact Hl. rewrite !modexp_spec by lia.
  exists (m1 ^ e mod N), (m2 ^ e mod N).
  repeat split.
  - rewrite Z.pow_mul_l, Z.mul_mod by lia. reflexivity.
  - rewrite Z.mod_pow_l. reflexivity.
Qed.

Lemma encode_multiplicative_witness :
  2 <= 667 /\ 0 <= 3 /\ (modexp_depth 3 <= 5)%nat /\
  exists c1 c2,
    encode 5 (667, 3) 10 = Ok c1 /\ encode 5 (667, 3) 20 = Ok c2 /\
    encode 5 (667, 3) (10 * 20) = Ok ((c1 * c2) mod 667) /\
    encode 5 (667, 3) (10 mod 667) = Ok c1.
Proof.
  assert (modexp_depth 3 <= 5)%nat as Hd by (vm_compute; lia).
  split; [lia|]. split; [lia|]. split; [exact Hd|].
  apply (encode_multiplicative 5 667 3 10 20); [lia | lia | exact Hd].
Defined.
